(** * regd: the decorator registry (src/regd/registry.py)

    A shallow embedding of [DecoratorRegistry].  Python objects live in a
    heap indexed by their identity; the registry's class methods become
    functions in a state-and-exception monad over that heap, and its
    generators computations that also append to the sequence of what they
    yielded.  The [while] loops of the source are bounded by a fuel that
    the monad carries, so that a loop that never leaves a cycle of
    [native_function] entries shows up as the outcome [Timeout], for every
    fuel.

    A decorator of the program under inspection is a callable that may do
    anything to the heap; the closures [new_decorator] and
    [new_parametrized_decorator] take what they capture (the native
    decorator, their own function object) as arguments.

    First the objects, the monad and the registry, then the vocabulary of
    the properties and the examples, then the proofs: the registry calls
    as heap updates, one application of a wrapper, chains of applications,
    the properties C1 to C10, and further properties of the registry,
    X1 onwards. *)

From Stdlib Require Import ZArith String List Lia.
From stdpp Require Import base option list strings gmap sorting.

Open Scope string_scope.

(** ** Values and objects *)

(** The identity of an object ([id(o)]): its index in the heap. *)
Abbreviation ref := nat.

Inductive value :=
| VNone
| VInt (z : Z)
| VRef (r : ref)
| VList (l : list ref).

#[global] Instance value_eq_dec : EqDecision value.
Proof. solve_decision. Defined.

(** What a function object does when called. *)
Inductive code :=
| CUser (body : nat)
| CNewDecorator
| CNewParametrizedDecorator
| CInnerNewDecorator (outer : ref).

#[global] Instance code_eq_dec : EqDecision code.
Proof. solve_decision. Defined.

Record class_obj := {
  cls_name : string;
  cls_meta : option ref;          (* [None]: the class of the class is [type] *)
  cls_bases : list ref;
  cls_dict : list (string * value) (* [__dict__], in insertion order *)
}.

Inductive kind :=
| KFunction (name : string) (doc : option string) (body : code)
| KStaticmethod (func : value)
| KClassmethod (func : value)
| KClass (c : class_obj)
| KInstance (cls : ref).

(** An object: what it is, and its [__annotations__] attribute when it has
    one. *)
Record obj := {
  o_kind : kind;
  o_ann : option (gmap string value)
}.

Abbreviation heap := (list obj).

Inductive pytype := TFunction | TStaticmethod | TClassmethod | TType | TOther.

#[global] Instance pytype_eq_dec : EqDecision pytype.
Proof. solve_decision. Defined.

(** ** The monad: fuel, state, exceptions *)

Inductive exn := AttributeError | KeyError | TypeError.

(** How a call ends: it returns, it raises, or it is still in a loop when
    the fuel is spent. *)
Inductive res (A : Type) :=
| Ok (a : A)
| Raise (e : exn)
| Timeout.
Arguments Ok {A} a.
Arguments Raise {A} e.
Arguments Timeout {A}.

Definition ST (S A : Type) : Type := nat -> S -> res A * S.

Definition ret {S A} (a : A) : ST S A := fun _ s => (Ok a, s).

Definition bind {S A B} (m : ST S A) (k : A -> ST S B) : ST S B :=
  fun n s =>
    match m n s with
    | (Ok a, s') => k a n s'
    | (Raise e, s') => (Raise e, s')
    | (Timeout, s') => (Timeout, s')
    end.

Definition raise {S A} (e : exn) : ST S A := fun _ s => (Raise e, s).

Definition timeout {S A} : ST S A := fun _ s => (Timeout, s).

(** A loop starts with the whole fuel of the run. *)
Definition with_fuel {S A} (f : nat -> ST S A) : ST S A := fun n s => f n n s.

Notation "x <- c ;; k" := (bind c (fun x => k))
  (at level 100, c at next level, right associativity).
Notation "c ;;; k" := (bind c (fun _ => k))
  (at level 100, right associativity).

Definition M := ST heap.

(** ** Attribute access *)

(** [type(fn)], as far as the registry tells types apart. *)
Definition typ (h : heap) (fn : value) : pytype :=
  match fn with
  | VRef r =>
      match h !! r with
      | Some o =>
          match o_kind o with
          | KFunction _ _ _ => TFunction
          | KStaticmethod _ => TStaticmethod
          | KClassmethod _ => TClassmethod
          | KClass c => match cls_meta c with None => TType | Some _ => TOther end
          | KInstance _ => TOther
          end
      | None => TOther
      end
  | _ => TOther
  end.

Definition type_of (fn : value) : M pytype := fun _ h => (Ok (typ h fn), h).

(** [hasattr(fn, '__annotations__')] *)
Definition hasattr_annotations (fn : value) : M bool :=
  fun _ h =>
    (Ok match fn with
        | VRef r =>
            match h !! r with
            | Some o => match o_ann o with Some _ => true | None => false end
            | None => false
            end
        | _ => false
        end, h).

(** [setattr(fn, '__annotations__', a)]: [None], numbers and lists take no
    attributes. *)
Definition setattr_annotations (fn : value) (a : gmap string value) : M unit :=
  fun _ h =>
    match fn with
    | VRef r =>
        match h !! r with
        | Some o => (Ok tt, <[r := {| o_kind := o_kind o; o_ann := Some a |}]> h)
        | None => (Raise AttributeError, h)
        end
    | _ => (Raise AttributeError, h)
    end.

(** [fn.__annotations__] *)
Definition getattr_annotations (fn : value) : M (gmap string value) :=
  fun _ h =>
    match fn with
    | VRef r =>
        match h !! r with
        | Some o =>
            match o_ann o with
            | Some a => (Ok a, h)
            | None => (Raise AttributeError, h)
            end
        | None => (Raise AttributeError, h)
        end
    | _ => (Raise AttributeError, h)
    end.

(** [fn.__annotations__[k] = x] *)
Definition setitem (fn : value) (k : string) (x : value) : M unit :=
  a <- getattr_annotations fn ;;
  setattr_annotations fn (<[k := x]> a).

(** [fn.__annotations__[k]] *)
Definition getitem (fn : value) (k : string) : M value :=
  a <- getattr_annotations fn ;;
  match a !! k with
  | Some x => ret x
  | None => raise KeyError
  end.

(** [fn.__func__] *)
Definition getattr_func (fn : value) : M value :=
  fun _ h =>
    match fn with
    | VRef r =>
        match h !! r with
        | Some o =>
            match o_kind o with
            | KStaticmethod f | KClassmethod f => (Ok f, h)
            | _ => (Raise AttributeError, h)
            end
        | None => (Raise AttributeError, h)
        end
    | _ => (Raise AttributeError, h)
    end.

(** [fn.__name__] *)
Definition getattr_name (fn : value) : M string :=
  fun _ h =>
    match fn with
    | VRef r =>
        match h !! r with
        | Some o =>
            match o_kind o with
            | KFunction name _ _ => (Ok name, h)
            | KClass c => (Ok (cls_name c), h)
            | _ => (Raise AttributeError, h)
            end
        | None => (Raise AttributeError, h)
        end
    | _ => (Raise AttributeError, h)
    end.

(** [x in seq] *)
Definition contains (x : value) (seq : value) : M bool :=
  match seq with
  | VList l => ret (bool_decide (x ∈ VRef <$> l))
  | _ => raise TypeError
  end.

(** [len(seq)] *)
Definition len (seq : value) : M nat :=
  match seq with
  | VList l => ret (List.length l)
  | _ => raise TypeError
  end.

(** [seq += more] *)
Definition iadd (seq : value) (more : list ref) : M value :=
  match seq with
  | VList l => ret (VList (l ++ more)%list)
  | _ => raise TypeError
  end.

(** [def name(...)]: a new function object.  It starts without
    [__annotations__], as in Python 2; in Python 3 it starts with the empty
    map, which is what [_make_portable] gives it on first touch, so the
    registry treats the two alike. *)
Definition def_function (name : string) (body : code) : M ref :=
  fun _ h =>
    (Ok (List.length h),
     (h ++ [{| o_kind := KFunction name None body; o_ann := None |}])%list).

(** [fn.__name__ = name; fn.__doc__ = doc] *)
Definition setattr_name_doc (fn : ref) (name : string) (doc : option string)
    : M unit :=
  fun _ h =>
    match h !! fn with
    | Some {| o_kind := KFunction _ _ body; o_ann := a |} =>
        (Ok tt, <[fn := {| o_kind := KFunction name doc body; o_ann := a |}]> h)
    | _ => (Raise AttributeError, h)
    end.

(** ** DecoratorRegistry *)

Definition NATIVE_FUNCTION := "native_function".
Definition DECORATOR := "decorator".
Definition DECORATORS := "decorators".

Definition _make_portable (fn : value) : M value :=
  b <- hasattr_annotations fn ;;
  (if negb b then setattr_annotations fn ∅ else ret tt) ;;;
  ret fn.

Definition _getfn (fn : value) : M value :=
  t <- type_of fn ;;
  fn <- (if bool_decide (t ∈ [TStaticmethod; TClassmethod])
         then getattr_func fn else ret fn) ;;
  _make_portable fn.

Definition _set_native_function (fn native_fn : value) : M unit :=
  fn <- _getfn fn ;;
  setitem fn NATIVE_FUNCTION native_fn.

(** [while NATIVE_FUNCTION in native_fn.__annotations__: ...] *)
Fixpoint native_loop (fuel : nat) (native_fn : value) : M value :=
  match fuel with
  | 0 => timeout
  | S fuel' =>
      a <- getattr_annotations native_fn ;;
      match a !! NATIVE_FUNCTION with
      | Some next => native_loop fuel' next
      | None => ret native_fn
      end
  end.

Definition _get_native_function (fn : value) : M value :=
  native_fn <- _getfn fn ;;
  with_fuel (fun fuel => native_loop fuel native_fn).

Definition _set_decorator (fn decorator : value) : M unit :=
  fn <- _getfn fn ;;
  setitem fn DECORATOR decorator.

Definition _get_decorator (fn : value) : M value :=
  fn <- _getfn fn ;;
  a <- getattr_annotations fn ;;
  match a !! DECORATOR with
  | Some decorator => ret decorator
  | None => ret VNone
  end.

Definition _append_decorator (fn : value) (decorator : ref) : M unit :=
  native_fn <- _get_native_function fn ;;
  a <- getattr_annotations native_fn ;;
  match a !! DECORATORS with
  | None => setitem native_fn DECORATORS (VList [])
  | Some _ => ret tt
  end ;;;
  ds <- getitem native_fn DECORATORS ;;
  b <- contains (VRef decorator) ds ;;
  if negb b
  then ds' <- iadd ds [decorator] ;; setitem native_fn DECORATORS ds'
  else ret tt.

Definition get_real_function (fn : value) : M value :=
  _get_native_function fn.

Definition get_decorators (fn : value) : M value :=
  native_fn <- _get_native_function fn ;;
  a <- getattr_annotations native_fn ;;
  match a !! DECORATORS with
  | Some decorators => ret decorators
  | None => ret (VList [])
  end.

(** A decorator of the program under inspection: a callable with a name and
    a docstring.  Calling it may do anything to the heap. *)
Record native := {
  nat_name : string;
  nat_doc : option string;
  nat_call : value -> M value
}.

(** The closure [new_decorator] of [decorator]; [self] is the closure's own
    function object. *)
Definition new_decorator (native_decorator : native) (self : ref)
    (fn : value) : M value :=
  fn_decorator <- nat_call native_decorator fn ;;
  native_fn <- _get_native_function fn ;;
  _set_decorator fn_decorator (VRef self) ;;;
  _set_native_function fn_decorator native_fn ;;;
  _set_native_function (VRef self) native_fn ;;;
  _append_decorator native_fn self ;;;
  ret fn_decorator.

Definition decorator (native_decorator : native) : M ref :=
  self <- def_function "new_decorator" CNewDecorator ;;
  setattr_name_doc self (nat_name native_decorator) (nat_doc native_decorator) ;;;
  ret self.

(** A parametrized decorator: called with arguments, it returns a
    decorator. *)
Record native_parametrized := {
  np_name : string;
  np_doc : option string;
  np_call : list value -> M native
}.



Definition parametrized_decorator
    (native_parametrized_decorator : native_parametrized) : M ref :=
  self <- def_function "new_parametrized_decorator" CNewParametrizedDecorator ;;
  setattr_name_doc self (np_name native_parametrized_decorator)
    (np_doc native_parametrized_decorator) ;;;
  ret self.

Definition is_decorated_with (fn decorator : value) : M bool :=
  ds <- get_decorators fn ;;
  contains decorator ds.

(** ** Scanning classes and modules *)

(** What the generators yield: a dict with one item.  The three [yield]
    statements of the source build it differently. *)
Inductive entry :=
| Method (methodname : string) (method : value)
| ModuleFunction (fname : string) (fn : value)
| ModuleMethod (cname fname : string) (method : value).


Definition entry_value (e : entry) : value :=
  match e with
  | Method _ v | ModuleFunction _ v | ModuleMethod _ _ v => v
  end.

(** The name a module scan filed the entry under in [module_names]. *)
Definition entry_fname (e : entry) : string :=
  match e with
  | Method n _ | ModuleFunction n _ | ModuleMethod _ n _ => n
  end.



(** A generator: a computation that also appends to the sequence of what
    it has yielded so far. *)
Definition G := ST (heap * list entry).

Definition lift {A} (m : M A) : G A :=
  fun n s => let (r, h) := m n (fst s) in (r, (h, snd s)).

Definition yield (e : entry) : G unit :=
  fun _ s => (Ok tt, (fst s, (snd s ++ [e])%list)).

(** [list(g)]: what was yielded, how the generator ended, and the heap it
    left. *)
Definition run {A} (g : G A) (fuel : nat) (h : heap) : list entry * res A * heap :=
  let '(r, (h', out)) := g fuel (h, []) in (out, r, h').

(** [for x in l: acc = body(x, acc)] *)
Fixpoint for_each {S A B} (l : list A) (acc : B) (body : A -> B -> ST S B) : ST S B :=
  match l with
  | [] => ret acc
  | x :: l' => acc' <- body x acc ;; for_each l' acc' body
  end.

(** [d.get(k)] on a dict given by its items. *)
Fixpoint dict_get (d : list (string * value)) (k : string) : value :=
  match d with
  | [] => VNone
  | (k', v) :: d' => if String.eqb k' k then v else dict_get d' k
  end.

Definition string_le (a b : string) : Prop := String.leb a b.

(** [sorted(set(names))] *)
Definition sorted_names (names : list string) : list string :=
  merge_sort string_le (remove_dups names).

(** The value of [cls] in [decorated_methods]: an object of the heap, a
    built-in class other than [type] (the class of a function, of [None],
    of a number, ...), or [type]. *)
Inductive clsval :=
| CVal (v : value)
| CBuiltin
| CType.

(** [cls.__class__] *)
Definition getattr_class (cls : clsval) : M clsval :=
  fun _ h =>
    match cls with
    | CVal (VRef r) =>
        match h !! r with
        | Some o =>
            match o_kind o with
            | KClass c =>
                (Ok match cls_meta c with None => CType | Some m => CVal (VRef m) end, h)
            | KInstance c => (Ok (CVal (VRef c)), h)
            | _ => (Ok CBuiltin, h)
            end
        | None => (Raise AttributeError, h)
        end
    | CVal _ => (Ok CBuiltin, h)
    | CBuiltin => (Ok CType, h)
    | CType => (Ok CType, h)
    end.

(** [cls.__dict__] of a class.  No member of a built-in class is a Python
    function, so for them the scan sees nothing. *)
Definition class_dict (cls : clsval) : M (list (string * value)) :=
  fun _ h =>
    match cls with
    | CVal (VRef r) =>
        match h !! r with
        | Some {| o_kind := KClass c |} => (Ok (cls_dict c), h)
        | _ => (Raise AttributeError, h)
        end
    | CVal _ => (Raise AttributeError, h)
    | _ => (Ok [], h)
    end.

(** [while cls.__class__ is not type: cls = cls.__class__] *)
Fixpoint class_loop (fuel : nat) (cls : clsval) : M clsval :=
  match fuel with
  | 0 => timeout
  | S fuel' =>
      c <- getattr_class cls ;;
      match c with
      | CType => ret cls
      | _ => class_loop fuel' c
      end
  end.

Definition decorated_methods (cls : value) (decorator : value) : G unit :=
  cls <- lift (with_fuel (fun fuel => class_loop fuel (CVal cls))) ;;
  d <- lift (class_dict cls) ;;
  for_each (map fst d) tt (fun methodname _ =>
    let method := dict_get d methodname in
    t <- lift (type_of method) ;;
    if bool_decide (t = TFunction) then
      ds <- lift (get_decorators method) ;;
      b <- lift (contains decorator ds) ;;
      if b then yield (Method methodname method) else ret tt
    else ret tt).

(** The names [dir] finds on a class: its own and those of its bases. *)
Fixpoint attribute_names (fuel : nat) (h : heap) (cls : ref) : option (list string) :=
  match fuel with
  | 0 => None
  | S fuel' =>
      match h !! cls with
      | Some {| o_kind := KClass c |} =>
          inherited ← mapM (attribute_names fuel' h) (cls_bases c);
          Some (map fst (cls_dict c) ++ concat inherited)%list
      | _ => Some []
      end
  end.

(** [dir(cls)] *)
Definition dir (cls : value) : M (list string) :=
  with_fuel (fun fuel _ h =>
    match cls with
    | VRef r =>
        match attribute_names fuel h r with
        | Some names => (Ok (sorted_names names), h)
        | None => (Timeout, h)
        end
    | _ => (Ok [], h)
    end).

(** A module, by the items of its [__dict__]. *)
Definition namespace := list (string * value).

(** [dir(module)] *)
Definition dir_module (module : namespace) : list string :=
  sorted_names (map fst module).

Definition is_function_type (t : pytype) : bool :=
  bool_decide (t ∈ [TFunction; TStaticmethod; TClassmethod]).

(** The body of [for cls_el in dir(fn)]; [body] is what the consumer of the
    generator does with a yielded item before the generator goes on. *)
Definition scan_class_element (body : entry -> G unit) (fn : value)
    (cls_el : string) (module_names : list string) : G (list string) :=
  d <- lift (class_dict (CVal fn)) ;;
  let method := dict_get d cls_el in
  t <- lift (type_of method) ;;
  if is_function_type t then
    method <- lift (_getfn method) ;;
    ds <- lift (get_decorators method) ;;
    n <- lift (len ds) ;;
    if bool_decide (0 < n) then
      native_fn <- lift (getitem method NATIVE_FUNCTION) ;;
      fname <- lift (getattr_name native_fn) ;;
      if bool_decide (fname ∉ module_names) then
        cname <- lift (getattr_name fn) ;;
        body (ModuleMethod cname fname (dict_get d fname)) ;;;
        ret (module_names ++ [fname])%list
      else ret module_names
    else ret module_names
  else ret module_names.

(** The body of [for el in dir(module)]. *)
Definition scan_module_element (body : entry -> G unit) (module : namespace)
    (exclude_methods exclude_functions : bool)
    (el : string) (module_names : list string) : G (list string) :=
  let fn := dict_get module el in
  t <- lift (type_of fn) ;;
  st <- (if negb exclude_functions && is_function_type t then
           fn <- lift (_getfn fn) ;;
           ds <- lift (get_decorators fn) ;;
           n <- lift (len ds) ;;
           if bool_decide (0 < n) then
             native_fn <- lift (getitem fn NATIVE_FUNCTION) ;;
             fname <- lift (getattr_name native_fn) ;;
             if bool_decide (fname ∉ module_names) then
               body (ModuleFunction fname (dict_get module fname)) ;;;
               ret (fn, (module_names ++ [fname])%list)
             else ret (fn, module_names)
           else ret (fn, module_names)
         else ret (fn, module_names)) ;;
  let fn := fst st in
  let module_names := snd st in
  t <- lift (type_of fn) ;;
  if negb exclude_methods && bool_decide (t = TType) then
    names <- lift (dir fn) ;;
    for_each names module_names (scan_class_element body fn)
  else ret module_names.

(** [for mfn in all_decorated_module_functions(...): body(mfn)]; the result
    is the final value of the local [module_names]. *)
Definition for_all_decorated_module_functions (body : entry -> G unit)
    (module : namespace) (exclude_methods exclude_functions : bool)
    : G (list string) :=
  for_each (dir_module module) []
    (scan_module_element body module exclude_methods exclude_functions).

Definition all_decorated_module_functions (module : namespace)
    (exclude_methods exclude_functions : bool) : G (list string) :=
  for_all_decorated_module_functions yield module exclude_methods exclude_functions.

Definition module_functions_decorated_with (module : namespace)
    (decorator : value) (exclude_methods exclude_functions : bool)
    : G (list string) :=
  for_all_decorated_module_functions
    (fun mfn =>
       ds <- lift (get_decorators (entry_value mfn)) ;;
       b <- lift (contains decorator ds) ;;
       if b then yield mfn else ret tt)
    module exclude_methods exclude_functions.

(** ** Observations on the heap *)

Definition kind_at (h : heap) (r : ref) : option kind := o_kind <$> h !! r.

Definition ann_at (h : heap) (r : ref) : option (gmap string value) :=
  h !! r ≫= o_ann.

(** What the annotations of [r] hold under the key [k]. *)
Definition track (h : heap) (r : ref) (k : string) : option value :=
  ann_at h r ≫= (fun a => a !! k).

Definition is_function (h : heap) (r : ref) : Prop :=
  ∃ name doc body, kind_at h r = Some (KFunction name doc body).

(** The function whose annotations [_getfn] reads and writes. *)
Definition unwrap (h : heap) (fn : value) : option ref :=
  match fn with
  | VRef r =>
      match kind_at h r with
      | Some (KStaticmethod f) | Some (KClassmethod f) =>
          match f with
          | VRef r' => if decide (r' < List.length h) then Some r' else None
          | _ => None
          end
      | Some _ => Some r
      | None => None
      end
  | _ => None
  end.

(** ** The heap updates the registry performs *)

Definition set_ann (r : ref) (a : gmap string value) (h : heap) : heap :=
  match h !! r with
  | Some o => <[r := {| o_kind := o_kind o; o_ann := Some a |}]> h
  | None => h
  end.

(** [_make_portable]: an object without annotations gets the empty map. *)
Definition portable (r : ref) (h : heap) : heap :=
  match ann_at h r with
  | None => set_ann r ∅ h
  | Some _ => h
  end.

(** [_getfn(r).__annotations__[k] = v] *)
Definition put (r : ref) (k : string) (v : value) (h : heap) : heap :=
  set_ann r (<[k := v]> (default ∅ (ann_at h r))) h.

(** The chain of [native_function] entries, followed from [v]. *)
Definition walk (fuel : nat) (h : heap) (v : value) : res value :=
  fst (native_loop fuel v 0 h).

Definition add_unique (d : ref) (ds : list ref) : list ref :=
  if decide (d ∈ ds) then ds else (ds ++ [d])%list.

Definition decorators_of (h : heap) (r : ref) : list ref :=
  match track h r DECORATORS with
  | Some (VList ds) => ds
  | _ => []
  end.

(** The [decorators] entry, when there is one, is a list. *)
Definition decorators_ok (h : heap) (r : ref) : Prop :=
  track h r DECORATORS = None ∨ ∃ ds, track h r DECORATORS = Some (VList ds).

(** The heap after the bookkeeping of one application: [fr] is the function
    the wrapper was applied to, [wr] the one the native decorator returned,
    [self] the closure that ran, [recorded] the wrapper it files the
    application under, [f0] the true original. *)
Definition applied (fr wr self recorded f0 : ref) (h : heap) : heap :=
  put f0 DECORATORS (VList (add_unique recorded (decorators_of h f0)))
    (put recorded NATIVE_FUNCTION (VRef f0)
       (put wr NATIVE_FUNCTION (VRef f0)
          (put wr DECORATOR (VRef self)
             (portable fr h)))).

(** ** The vocabulary of the properties *)

Definition tracking_keys : list string := [NATIVE_FUNCTION; DECORATOR; DECORATORS].

(** No registered wrapper has touched [r]. *)
Definition untracked (h : heap) (r : ref) : Prop :=
  ∀ k, k ∈ tracking_keys → track h r k = None.

(** A function of the program under inspection, not a closure of the
    registry. *)
Definition user_function (h : heap) (r : ref) : Prop :=
  ∃ name doc body, kind_at h r = Some (KFunction name doc (CUser body)).

(** A function of the program under inspection that the registry has not
    touched. *)
Definition plain_function (h : heap) (f : ref) : Prop :=
  user_function h f ∧ untracked h f.

(** [d] is the wrapper [decorator(native_decorator)] returned. *)
Definition registered (h : heap) (native_decorator : native) (d : ref) : Prop :=
  kind_at h d =
    Some (KFunction (nat_name native_decorator) (nat_doc native_decorator)
            CNewDecorator).

(** [outer] is the wrapper [parametrized_decorator(npd)] returned. *)
Definition registered_parametrized (h : heap) (npd : native_parametrized)
    (outer : ref) : Prop :=
  kind_at h outer =
    Some (KFunction (np_name npd) (np_doc npd) CNewParametrizedDecorator).

Definition fresh_function (o : obj) : Prop :=
  (∃ name doc body, o_kind o = KFunction name doc (CUser body))
  ∧ ∀ a k, o_ann o = Some a → k ∈ tracking_keys → a !! k = None.

(** The decorator defines a function and returns it, as in
    [def deco(fn): def wrapper(...): ...; return wrapper]. *)
Definition builds_wrapper (native_decorator : native) : Prop :=
  ∀ fn n h, ∃ o,
    nat_call native_decorator fn n h = (Ok (VRef (List.length h)), (h ++ [o])%list)
    ∧ fresh_function o.


(** ** Decorators and functions of the test suite and of the examples *)

(** [def deco(fn): def wrapper(...): return fn(...); return wrapper] *)
Definition wrapping (name : string) (body : nat) : native :=
  {| nat_name := name; nat_doc := None;
     nat_call := fun fn => w <- def_function "wrapper" (CUser body) ;; ret (VRef w) |}.

(** [def deco(fn): return fn] *)
Definition passthrough (name : string) : native :=
  {| nat_name := name; nat_doc := None; nat_call := fun fn => ret fn |}.


Definition just_decorator : native := wrapping "just_decorator" 1.

(** [def name(...): ...] at top level, before anything touched it. *)
Definition def_ (name : string) (body : nat) : obj :=
  {| o_kind := KFunction name None (CUser body); o_ann := None |}.

(** ** Chains of applications *)

(** [t] is the original [f] or a function whose [native_function] entry
    is [f]. *)
Definition in_chain (h : heap) (f t : ref) : Prop :=
  t = f ∨ (is_function h t ∧ track h t NATIVE_FUNCTION = Some (VRef f)
           ∧ is_Some (ann_at h f)).

(** [f] is a true original, [ds] its list of decorators, and every value
    of [ws] is a function of its chain. *)
Definition chain_inv (h : heap) (f : ref) (ws : list value) (ds : list ref) : Prop :=
  is_function h f ∧ track h f NATIVE_FUNCTION = None
  ∧ decorators_ok h f ∧ decorators_of h f = ds
  ∧ ∀ v, v ∈ ws → ∃ t, v = VRef t ∧ in_chain h f t.







(** ** Example heaps *)

(** [def somefunc2(...)] and nothing else. *)
Definition heap_f : heap := [def_ "somefunc2" 0].

(** ... then [rjd = DecoratorRegistry.decorator(just_decorator)]: [rjd] is
    object 1. *)
Definition heap_rjd : heap := snd (decorator just_decorator 0 heap_f).

(** ... or [rid = DecoratorRegistry.decorator(lambda fn: fn)]. *)
Definition heap_rid : heap := snd (decorator (passthrough "identity") 0 heap_f).





(** ** Sessions *)





(** Two functions, then [rdwa] (object 2) or [rjd] (object 2). *)
Definition heap_fg : heap := [def_ "somefunc10" 0; def_ "somefunc20" 1].
Definition heap_fg_rjd : heap := snd (decorator just_decorator 0 heap_fg).


(** ** What the queries may change *)

(** [h'] is [h], except that objects without annotations may have got the
    empty map. *)
Definition only_portable (h h' : heap) : Prop :=
  List.length h' = List.length h
  ∧ ∀ r, kind_at h' r = kind_at h r
         ∧ (ann_at h' r = ann_at h r
            ∨ (ann_at h r = None ∧ ann_at h' r = Some ∅)).

(** The same, for the heap of a generator. *)
Definition only_portable_gen (s s' : heap * list entry) : Prop :=
  only_portable (fst s) (fst s').

(** Whatever the outcome, the computation leaves a state related by [R]
    to the one it started in. *)
Definition keeps {S A} (R : S → S → Prop) (m : ST S A) : Prop :=
  ∀ n s, R s (snd (m n s)).

(** The query operations of the registry. *)
Inductive query :=
| GetRealFunction (fn : value)
| GetDecorators (fn : value)
| IsDecoratedWith (fn decorator : value)
| DecoratedMethods (cls decorator : value)
| AllDecoratedModuleFunctions (module : namespace)
    (exclude_methods exclude_functions : bool)
| ModuleFunctionsDecoratedWith (module : namespace) (decorator : value)
    (exclude_methods exclude_functions : bool).

(** The heap a query leaves, whether it returned, raised or ran out of
    fuel; a generator is run to its end. *)
Definition heap_after (q : query) (fuel : nat) (h : heap) : heap :=
  match q with
  | GetRealFunction fn => snd (get_real_function fn fuel h)
  | GetDecorators fn => snd (get_decorators fn fuel h)
  | IsDecoratedWith fn d => snd (is_decorated_with fn d fuel h)
  | DecoratedMethods cls d => snd (run (decorated_methods cls d) fuel h)
  | AllDecoratedModuleFunctions module em ef =>
      snd (run (all_decorated_module_functions module em ef) fuel h)
  | ModuleFunctionsDecoratedWith module d em ef =>
      snd (run (module_functions_decorated_with module d em ef) fuel h)
  end.

(** ** What a module scan yields *)

(** [r.__name__], for a function or a class. *)
Definition name_at (h : heap) (r : ref) : option string :=
  match kind_at h r with
  | Some (KFunction name _ _) => Some name
  | Some (KClass c) => Some (cls_name c)
  | _ => None
  end.

(** An entry a scan of [module] may yield: a top-level entry, only when
    functions are not excluded, under the bare name [fname] of some object
    and with the value [module] binds to that name; or a method entry,
    only when methods are not excluded, under the name [cname] of a class
    [c] and the name [fname] of some object, with the value [c] binds to
    that name. *)
Definition entry_ok (h : heap) (module : namespace)
    (exclude_methods exclude_functions : bool) (e : entry) : Prop :=
  match e with
  | ModuleFunction fname v =>
      exclude_functions = false
      ∧ v = dict_get module fname
      ∧ ∃ r, name_at h r = Some fname
  | ModuleMethod cname fname v =>
      exclude_methods = false
      ∧ (∃ r c, kind_at h r = Some (KClass c) ∧ cname = cls_name c
                ∧ v = dict_get (cls_dict c) fname)
      ∧ ∃ r, name_at h r = Some fname
  | Method _ _ => False
  end.

(** All along a generator that started in [h0], the heap differs from
    [h0] by empty annotation maps only, and [J] holds of the entries
    yielded so far. *)
Definition gen_inv (h0 : heap) (J : list entry → Prop)
    (h : heap) (out : list entry) : Prop :=
  only_portable h0 h ∧ J out.

(** What holds of the entries yielded so far, all along a scan of
    [module]. *)
Definition scan_entries (h0 : heap) (module : namespace)
    (exclude_methods exclude_functions : bool) (out : list entry) : Prop :=
  Forall (entry_ok h0 module exclude_methods exclude_functions) out
  ∧ NoDup (entry_fname <$> out).

(** A member [decorated_methods] may yield: a function object that a
    class binds to the name in its own [__dict__]. *)
Definition member_ok (h : heap) (e : entry) : Prop :=
  ∃ methodname r c_ref c,
    e = Method methodname (VRef r)
    ∧ is_function h r
    ∧ kind_at h c_ref = Some (KClass c)
    ∧ (methodname, VRef r) ∈ cls_dict c.

(** From a state in [I] whose entries satisfy [P], the generator ends in
    a state in [I], however it ends; if it returns [a], the entries then
    satisfy [Q a]. *)
Definition triple {A} (I : heap → list entry → Prop) (P : list entry → Prop)
    (g : G A) (Q : A → list entry → Prop) : Prop :=
  ∀ n h out, I h out → P out →
    I (fst (snd (g n (h, out)))) (snd (snd (g n (h, out))))
    ∧ ∀ a, fst (g n (h, out)) = Ok a → Q a (snd (snd (g n (h, out)))).

(** [def f ...; f = rjd(f); a = f], and [rjd] itself, in one module:
    after [w = rjd(somefunc2)] the module binds [somefunc2] and [a] to
    [w] and [just_decorator] to [rjd]. *)
Definition aliases_session : G (list string) :=
  w <- lift (new_decorator just_decorator 1 (VRef 0)) ;;
  all_decorated_module_functions
    [("somefunc2", w); ("just_decorator", VRef 1); ("a", w)] false false.

(** ** Classes and modules of the examples *)

(** [staticmethod(fn)], [classmethod(fn)], a [class] statement, or the
    creation of an instance: a new object of that kind. *)
Definition new_object (k : kind) : M ref :=
  fun _ h => (Ok (List.length h), (h ++ [{| o_kind := k; o_ann := None |}])%list).

Definition class_ (name : string) (bases : list ref) (d : list (string * value)) : kind :=
  KClass {| cls_name := name; cls_meta := None; cls_bases := bases; cls_dict := d |}.

(** In a heap with two functions [somefunc10] (0), [somefunc20] (1) and
    [rjd] (2):

    [class TestClass: @rjd def somefunc10 ...;
                      @staticmethod @rjd def somefunc20 ...]

    The result is the class, an instance of it, and the two members. *)
Definition test_class : M (ref * ref * value * value) :=
  m <- new_decorator just_decorator 2 (VRef 0) ;;
  w <- new_decorator just_decorator 2 (VRef 1) ;;
  s <- new_object (KStaticmethod w) ;;
  c <- new_object (class_ "TestClass" [] [("somefunc10", m); ("somefunc20", VRef s)]) ;;
  i <- new_object (KInstance c) ;;
  ret (c, i, m, VRef s).

Definition heap_test_class : heap := snd (test_class 2 heap_fg_rjd).

(** [def somefunc2 ...; g = rjd(somefunc2)]: the module binds
    [somefunc2] to the original and [g] to the wrapper. *)
Definition original_in_module_session : G (list string) :=
  w <- lift (new_decorator just_decorator 1 (VRef 0)) ;;
  all_decorated_module_functions [("somefunc2", VRef 0); ("g", w)] false false.

(** [from m import somefunc2 as g], where [m] has
    [@rjd def somefunc2 ...]: the module binds [g] to the wrapper and
    nothing to [somefunc2]. *)
Definition renamed_import_session : G (list string) :=
  w <- lift (new_decorator just_decorator 1 (VRef 0)) ;;
  module_functions_decorated_with [("g", w)] (VRef 1) false false.

(** In a heap with two functions both named [run] (0 and 1) and [rjd]
    (2):  [class A: @rjd def run ...] and [class B: @rjd def run ...] in
    one module. *)
Definition two_classes_session : G (list string) :=
  a_run <- lift (new_decorator just_decorator 2 (VRef 0)) ;;
  b_run <- lift (new_decorator just_decorator 2 (VRef 1)) ;;
  a <- lift (new_object (class_ "A" [] [("run", a_run)])) ;;
  b <- lift (new_object (class_ "B" [] [("run", b_run)])) ;;
  all_decorated_module_functions [("A", VRef a); ("B", VRef b)] false false.

Definition heap_run_run_rjd : heap :=
  snd (decorator just_decorator 0 [def_ "run" 0; def_ "run" 1]).

(** ** Further vocabulary *)

(** [s] is [staticmethod(f)] or [classmethod(f)], for a function [f]. *)
Definition binds_function (h : heap) (s f : ref) : Prop :=
  (kind_at h s = Some (KStaticmethod (VRef f))
   ∨ kind_at h s = Some (KClassmethod (VRef f)))
  ∧ is_function h f.

(** [None], a number or a list: a value that takes no attributes. *)
Definition takes_no_attributes (v : value) : Prop := ∀ r, v ≠ VRef r.

(** [c] is a class whose class is [type]. *)
Definition plain_class (h : heap) (c : ref) : Prop :=
  ∃ co, kind_at h c = Some (KClass co) ∧ cls_meta co = None.

(** [x.__class__ is c]: [x] is an instance of [c], or a class with the
    metaclass [c]. *)
Definition class_is (h : heap) (x c : ref) : Prop :=
  kind_at h x = Some (KInstance c)
  ∨ ∃ co, kind_at h x = Some (KClass co) ∧ cls_meta co = Some c.

(** A value whose class is a built-in class: [None], a number, a list, a
    function, a [staticmethod] or [classmethod] object. *)
Definition of_builtin_class (h : heap) (v : value) : Prop :=
  match v with
  | VRef r =>
      match kind_at h r with
      | Some (KFunction _ _ _) | Some (KStaticmethod _) | Some (KClassmethod _) => True
      | _ => False
      end
  | _ => True
  end.

(** Whether [is_decorated_with(v, decorator)] answers [True] in [h]. *)
Definition answers_true (fuel : nat) (h : heap) (decorator v : value) : bool :=
  match fst (is_decorated_with v decorator fuel h) with
  | Ok true => true
  | _ => false
  end.

(** Of the items of the dict [d], in its order, those whose value is a
    function object for which [is_decorated_with] answers [True] in
    [h]. *)
Definition decorated_functions_of (fuel : nat) (h : heap) (decorator : value)
    (d : list (string * value)) : list entry :=
  (fun k => Method k (dict_get d k)) <$>
    filter (fun k => typ h (dict_get d k) = TFunction
                     ∧ answers_true fuel h decorator (dict_get d k) = true)
           (map fst d).

(** In a heap with two functions [somefunc10] (0), [somefunc20] (1) and
    [rjd] (2):

    [class Meta(type): @rjd def somefunc20 ...]
    [class WithMeta(metaclass=Meta): @rjd def somefunc10 ...]

    The result is the metaclass and the class. *)
Definition class_with_metaclass : M (ref * ref) :=
  m <- new_decorator just_decorator 2 (VRef 0) ;;
  w <- new_decorator just_decorator 2 (VRef 1) ;;
  meta <- new_object (class_ "Meta" [] [("somefunc20", w)]) ;;
  c <- new_object (KClass {| cls_name := "WithMeta"; cls_meta := Some meta;
                             cls_bases := []; cls_dict := [("somefunc10", m)] |}) ;;
  ret (meta, c).

Definition heap_with_metaclass : heap := snd (class_with_metaclass 2 heap_fg_rjd).


(** Every object has its [__annotations__], as every function has in
    Python 3. *)
Definition settled (h : heap) : Prop :=
  ∀ r, r < List.length h → is_Some (ann_at h r).

(** The outcome of a call that raised or was still in a loop when the
    fuel was spent. *)
Definition does_not_return {A} (r : res A) : Prop := ∀ a, r ≠ Ok a.

(** In the heap [h], which both leave as it is, the generator [g_t]
    follows the generator [g_y]: whatever was yielded before, [g_y]
    yields some entries, and [g_t] yields those of them that [sel]
    selects and ends as [g_y] does, or it yields those that [sel] selects
    of the first few of them and ends with an exception.  [passed] holds
    of the entries [g_t] has got past. *)
Definition follows {A} (fuel : nat) (h : heap) (sel : entry → bool)
    (passed : entry → Prop) (g_t g_y : G A) : Prop :=
  ∀ o1 o2, ∃ Δ Δp r1 r2,
    g_y fuel (h, o2) = (r2, (h, (o2 ++ Δ)%list))
    ∧ g_t fuel (h, o1) = (r1, (h, (o1 ++ filter (fun e => sel e = true) Δp)%list))
    ∧ Forall passed Δp
    ∧ ((r1 = r2 ∧ Δp = Δ) ∨ (does_not_return r1 ∧ Δp `prefix_of` Δ)).

(** [v] is a function, or a [staticmethod] or [classmethod] of one, that
    belongs to a chain the registry built, and the true original of the
    chain has decorators and the name [fname]. *)
Definition decorated_as (h : heap) (v : value) (fname : string) : Prop :=
  is_function_type (typ h v) = true
  ∧ ∃ w f ds, unwrap h v = Some w ∧ chain_inv h f [VRef w] ds ∧ ds ≠ []
              ∧ name_at h f = Some fname.

(** [v] is a function, or a [staticmethod] or [classmethod] of one, that
    is a true original with decorators. *)
Definition decorated_original (h : heap) (v : value) : Prop :=
  is_function_type (typ h v) = true
  ∧ ∃ f ds, unwrap h v = Some f ∧ chain_inv h f [VRef f] ds ∧ ds ≠ [].

(** [rjd(somefunc2)] has been applied: [somefunc2] (0), [rjd] (1) and the
    result (2) all have their annotations. *)
Definition heap_decorated : heap :=
  snd (new_decorator just_decorator 1 (VRef 0) 2 heap_rjd).

(** Following the [native_function] entries from [r] ends at [f], which
    has none. *)
Inductive resolves (h : heap) : ref → ref → Prop :=
| resolves_here r : track h r NATIVE_FUNCTION = None → resolves h r r
| resolves_next r r' f :
    track h r NATIVE_FUNCTION = Some (VRef r') → resolves h r' f → resolves h r f.

(** The object [get_real_function(v)] looks for: the end of the chain of
    the function [_getfn(v)]. *)
Definition real_function_of (h : heap) (v : value) (f : ref) : Prop :=
  ∃ w, unwrap h v = Some w ∧ resolves h w f.

(** What a module scan takes for a decorated function named [fname]: a
    value [v] that is a function, a [staticmethod] or a [classmethod]
    object, where [w] is what [_getfn(v)] returns, the end of the chain
    of [w] has a non-empty list of decorators, and the [native_function]
    entry of [w] is an object named [fname]. *)
Definition taken_as (h : heap) (v : value) (fname : string) : Prop :=
  is_function_type (typ h v) = true
  ∧ ∃ w f f' ds,
      unwrap h v = Some w
      ∧ track h w NATIVE_FUNCTION = Some (VRef f) ∧ name_at h f = Some fname
      ∧ real_function_of h (VRef w) f'
      ∧ track h f' DECORATORS = Some (VList ds) ∧ ds ≠ [].

(** Where an entry of a scan of [module] comes from: a name the module
    binds to such a value; or a name it binds to a class, with the class
    [type], that has such a value among its own members. *)
Definition yielded_for (h : heap) (module : namespace) (e : entry) : Prop :=
  match e with
  | ModuleFunction fname _ =>
      ∃ el, el ∈ module.*1 ∧ taken_as h (dict_get module el) fname
  | ModuleMethod cname fname _ =>
      ∃ el c co m,
        el ∈ module.*1 ∧ unwrap h (dict_get module el) = Some c
        ∧ kind_at h c = Some (KClass co) ∧ cls_meta co = None
        ∧ cname = cls_name co
        ∧ m ∈ (cls_dict co).*1 ∧ taken_as h (dict_get (cls_dict co) m) fname
  | Method _ _ => False
  end.




(** * Proofs *)

Close Scope string_scope.

(** ** The heap updates *)

Lemma length_set_ann r a h : List.length (set_ann r a h) = List.length h.
Proof. unfold set_ann. destruct (h !! r); [apply length_insert | done]. Qed.

Lemma lookup_set_ann r a h r' :
  set_ann r a h !! r' =
    if decide (r = r')
    then (fun o => {| o_kind := o_kind o; o_ann := Some a |}) <$> h !! r
    else h !! r'.
Proof.
  unfold set_ann. destruct (h !! r) as [o|] eqn:E.
  - case_decide as Hr.
    + subst r'. simpl. apply list_lookup_insert_eq. by eapply lookup_lt_Some.
    + by apply list_lookup_insert_ne.
  - case_decide; [by subst|done].
Qed.

Lemma kind_at_set_ann r a h r' : kind_at (set_ann r a h) r' = kind_at h r'.
Proof.
  unfold kind_at. rewrite lookup_set_ann. case_decide; [subst|done].
  by destruct (h !! r').
Qed.

Lemma ann_at_set_ann r a h r' :
  ann_at (set_ann r a h) r' =
    if decide (r = r' ∧ r < List.length h) then Some a else ann_at h r'.
Proof.
  unfold ann_at. rewrite lookup_set_ann. case_decide as Hr.
  - subst r'. destruct (h !! r) as [o|] eqn:E; simpl.
    + rewrite decide_True; [done|]. split; [done|]. by eapply lookup_lt_Some.
    + rewrite decide_False; [done|]. intros [_ Hlt].
      apply lookup_ge_None in E. lia.
  - rewrite decide_False; [done|]. by intros [? _].
Qed.

Lemma length_portable r h : List.length (portable r h) = List.length h.
Proof. unfold portable. destruct (ann_at h r); [done|apply length_set_ann]. Qed.

Lemma kind_at_portable r h r' : kind_at (portable r h) r' = kind_at h r'.
Proof. unfold portable. destruct (ann_at h r); [done|apply kind_at_set_ann]. Qed.

Lemma ann_at_portable r h r' :
  ann_at (portable r h) r' =
    match ann_at h r' with
    | Some a => Some a
    | None => if decide (r = r' ∧ r < List.length h) then Some ∅ else None
    end.
Proof.
  unfold portable. destruct (ann_at h r) as [a|] eqn:E.
  - destruct (ann_at h r') as [a'|] eqn:E'; [done|].
    rewrite decide_False; [done|]. intros [-> _]. congruence.
  - rewrite ann_at_set_ann. case_decide as Hr.
    + destruct Hr as [-> ?]. by rewrite E.
    + by destruct (ann_at h r').
Qed.

Lemma track_portable r h r' k : track (portable r h) r' k = track h r' k.
Proof.
  unfold track. rewrite ann_at_portable.
  destruct (ann_at h r'); [done|]. by case_decide.
Qed.

Lemma length_put r k v h : List.length (put r k v h) = List.length h.
Proof. apply length_set_ann. Qed.

Lemma kind_at_put r k v h r' : kind_at (put r k v h) r' = kind_at h r'.
Proof. apply kind_at_set_ann. Qed.

Lemma ann_at_put r k v h r' :
  ann_at (put r k v h) r' =
    if decide (r = r' ∧ r < List.length h)
    then Some (<[k := v]> (default ∅ (ann_at h r)))
    else ann_at h r'.
Proof. apply ann_at_set_ann. Qed.

Lemma track_put r k v h r' k' :
  r < List.length h →
  track (put r k v h) r' k' =
    if decide (r = r' ∧ k = k') then Some v else track h r' k'.
Proof.
  intros Hlt. unfold track. rewrite ann_at_put.
  destruct (decide (r = r')) as [->|Hr].
  - rewrite decide_True by done. simpl.
    destruct (decide (k = k')) as [->|Hk].
    + rewrite decide_True by done. apply lookup_insert_eq.
    + rewrite decide_False by (by intros [_ ?]).
      rewrite lookup_insert_ne by done. by destruct (ann_at h r').
  - rewrite !decide_False by (by intros [? _]). done.
Qed.



Lemma has_ann_portable r h r' :
  is_Some (ann_at h r') → is_Some (ann_at (portable r h) r').
Proof. rewrite ann_at_portable. by intros [a ->]. Qed.

Lemma has_ann_portable_eq r h :
  r < List.length h → is_Some (ann_at (portable r h) r).
Proof.
  intros. rewrite ann_at_portable. destruct (ann_at h r); [done|].
  by rewrite decide_True.
Qed.

Lemma unwrap_ext h h' fn :
  List.length h' = List.length h → (∀ r, kind_at h' r = kind_at h r) →
  unwrap h' fn = unwrap h fn.
Proof.
  intros Hl Hk. destruct fn; simpl; try done. by rewrite Hk, Hl.
Qed.



Lemma unwrap_lt h fn r : unwrap h fn = Some r → r < List.length h.
Proof.
  destruct fn as [| |r0|]; simpl; try done. unfold kind_at.
  destruct (h !! r0) as [o|] eqn:E; simpl; [|done].
  apply lookup_lt_Some in E.
  destruct (o_kind o) as [| [] | [] | |]; try case_decide; intros; simplify_eq; done.
Qed.

Lemma unwrap_function h r : is_function h r → unwrap h (VRef r) = Some r.
Proof. intros (?&?&?&E). simpl. by rewrite E. Qed.

Lemma is_function_lt h r : is_function h r → r < List.length h.
Proof. intros Hf. eapply unwrap_lt, unwrap_function, Hf. Qed.

(** ** The private methods, as heap updates *)

Lemma _make_portable_ok r n h :
  r < List.length h → _make_portable (VRef r) n h = (Ok (VRef r), portable r h).
Proof.
  intros Hlt. apply lookup_lt_is_Some in Hlt as [o Ho].
  unfold _make_portable, bind, hasattr_annotations, setattr_annotations, ret,
    portable, set_ann, ann_at.
  rewrite Ho. simpl. destruct (o_ann o); simpl; [done|]. by rewrite Ho.
Qed.

Lemma _make_portable_fail fn n h :
  (∀ r, fn = VRef r → List.length h ≤ r) →
  _make_portable fn n h = (Raise AttributeError, h).
Proof.
  intros Hr. unfold _make_portable, bind, hasattr_annotations, setattr_annotations.
  destruct fn as [| |r|]; try done.
  specialize (Hr r eq_refl). apply lookup_ge_None in Hr.
  rewrite Hr. simpl. by rewrite Hr.
Qed.

Lemma bind_ok {S A B} (m : ST S A) (k : A → ST S B) n s a s' :
  m n s = (Ok a, s') → bind m k n s = k a n s'.
Proof. unfold bind. by intros ->. Qed.

Lemma bind_raise {S A B} (m : ST S A) (k : A → ST S B) n s e s' :
  m n s = (Raise e, s') → bind m k n s = (Raise e, s').
Proof. unfold bind. by intros ->. Qed.

Lemma bind_timeout {S A B} (m : ST S A) (k : A → ST S B) n s s' :
  m n s = (Timeout, s') → bind m k n s = (Timeout, s').
Proof. unfold bind. by intros ->. Qed.

Lemma getattr_func_static h r f n :
  kind_at h r = Some (KStaticmethod f) ∨ kind_at h r = Some (KClassmethod f) →
  getattr_func (VRef r) n h = (Ok f, h).
Proof.
  unfold kind_at, getattr_func. destruct (h !! r) as [o|]; simpl; [|by intros []].
  intros [[= ->]|[= ->]]; done.
Qed.

Lemma typ_kind h r :
  typ h (VRef r) =
    match kind_at h r with
    | Some (KFunction _ _ _) => TFunction
    | Some (KStaticmethod _) => TStaticmethod
    | Some (KClassmethod _) => TClassmethod
    | Some (KClass c) => match cls_meta c with None => TType | Some _ => TOther end
    | _ => TOther
    end.
Proof. unfold typ, kind_at. destruct (h !! r) as [o|]; [|done]. simpl. by destruct (o_kind o). Qed.

Lemma _getfn_ok fn n h r :
  unwrap h fn = Some r → _getfn fn n h = (Ok (VRef r), portable r h).
Proof.
  intros Hu. pose proof (unwrap_lt _ _ _ Hu) as Hlt.
  destruct fn as [| |r0|]; try done. simpl in Hu.
  unfold _getfn. erewrite bind_ok by reflexivity. rewrite typ_kind.
  destruct (kind_at h r0) as [[| f | f | c |]|] eqn:Hk; simplify_eq.
  - erewrite bind_ok by reflexivity. by apply _make_portable_ok.
  - destruct f; try done. case_decide; simplify_eq.
    erewrite bind_ok by (apply getattr_func_static; eauto).
    by apply _make_portable_ok.
  - destruct f; try done. case_decide; simplify_eq.
    erewrite bind_ok by (apply getattr_func_static; eauto).
    by apply _make_portable_ok.
  - destruct (cls_meta c); (erewrite bind_ok by reflexivity); by apply _make_portable_ok.
  - erewrite bind_ok by reflexivity. by apply _make_portable_ok.
Qed.

Lemma _getfn_fail fn n h :
  unwrap h fn = None → _getfn fn n h = (Raise AttributeError, h).
Proof.
  intros Hu. unfold _getfn. erewrite bind_ok by reflexivity.
  destruct fn as [| |r0|];
    try (erewrite bind_ok by reflexivity; by apply _make_portable_fail).
  simpl in Hu. rewrite typ_kind.
  destruct (kind_at h r0) as [[| f | f | c |]|] eqn:Hk; simplify_eq.
  - erewrite bind_ok by (apply getattr_func_static; eauto).
    apply _make_portable_fail. intros r ->. case_decide; [done|lia].
  - erewrite bind_ok by (apply getattr_func_static; eauto).
    apply _make_portable_fail. intros r ->. case_decide; [done|lia].
  - erewrite bind_ok by reflexivity. apply _make_portable_fail.
    intros r [= <-]. apply lookup_ge_None. unfold kind_at in Hk.
    by destruct (h !! r0).
Qed.

Lemma getattr_annotations_ok r a n h :
  ann_at h r = Some a → getattr_annotations (VRef r) n h = (Ok a, h).
Proof.
  unfold ann_at, getattr_annotations. destruct (h !! r); simpl; [|done].
  by intros ->.
Qed.

Lemma getattr_annotations_heap fn n h : snd (getattr_annotations fn n h) = h.
Proof.
  unfold getattr_annotations. destruct fn; try done.
  destruct (h !! r); [|done]. by destruct (o_ann o).
Qed.

Lemma setitem_ok r k v n h :
  is_Some (ann_at h r) → setitem (VRef r) k v n h = (Ok tt, put r k v h).
Proof.
  intros [a Ha]. unfold setitem, bind. rewrite (getattr_annotations_ok _ _ _ _ Ha).
  unfold setattr_annotations, put, set_ann. rewrite Ha. simpl.
  unfold ann_at in Ha. by destruct (h !! r).
Qed.

Lemma native_loop_walk fuel v n h : native_loop fuel v n h = (walk fuel h v, h).
Proof.
  unfold walk. revert v n. induction fuel as [|fuel IH]; intros v n; [done|].
  simpl. unfold bind.
  change (getattr_annotations v n h) with (getattr_annotations v 0 h).
  pose proof (getattr_annotations_heap v 0 h) as Hh.
  destruct (getattr_annotations v 0 h) as [[a| |] h1]; simpl in Hh; subst; try done.
  destruct (a !! NATIVE_FUNCTION) as [next|]; [|done].
  by rewrite (IH next n), (IH next 0).
Qed.

Lemma walk_step fuel h r a next :
  ann_at h r = Some a → a !! NATIVE_FUNCTION = Some next →
  walk (S fuel) h (VRef r) = walk fuel h next.
Proof.
  intros Ha Hn. unfold walk. simpl.
  erewrite bind_ok by (by apply getattr_annotations_ok). by rewrite Hn.
Qed.

Lemma walk_end fuel h r :
  is_Some (ann_at h r) → track h r NATIVE_FUNCTION = None →
  walk (S fuel) h (VRef r) = Ok (VRef r).
Proof.
  intros [a Ha] Hn. unfold walk. simpl. unfold track in Hn. rewrite Ha in Hn.
  erewrite bind_ok by (by apply getattr_annotations_ok). simpl in Hn. by rewrite Hn.
Qed.

Lemma walk_track_step fuel h r next :
  track h r NATIVE_FUNCTION = Some next →
  walk (S fuel) h (VRef r) = walk fuel h next.
Proof.
  unfold track. destruct (ann_at h r) as [a|] eqn:Ha; [|done]. simpl.
  intros Hn. by eapply walk_step.
Qed.

(** A walk that ends, ends at an object with annotations and no
    [native_function] entry. *)
Lemma walk_ok_inv fuel h v v' :
  walk fuel h v = Ok v' →
  ∃ r, v' = VRef r ∧ is_Some (ann_at h r) ∧ track h r NATIVE_FUNCTION = None.
Proof.
  revert v. induction fuel as [|fuel IH]; intros v; [done|].
  unfold walk. simpl. unfold bind.
  destruct v as [| |r|]; try done. simpl. unfold track, ann_at.
  destruct (h !! r) as [o|] eqn:Ho; [|done]. simpl.
  destruct (o_ann o) as [a|] eqn:Ha; [|done].
  destruct (a !! NATIVE_FUNCTION) as [next|] eqn:Hn.
  - intros Hw. apply (IH next) in Hw as (r'&->&?&?). by exists r'.
  - simpl. intros [= <-]. exists r. rewrite Ho. simpl. rewrite Ha. simpl. eauto.
Qed.

Lemma _get_native_function_ok fn n h r :
  unwrap h fn = Some r →
  _get_native_function fn n h = (walk n (portable r h) (VRef r), portable r h).
Proof.
  intros Hu. unfold _get_native_function.
  erewrite bind_ok by (by apply _getfn_ok). unfold with_fuel.
  apply native_loop_walk.
Qed.

Lemma _get_native_function_fail fn n h :
  unwrap h fn = None → _get_native_function fn n h = (Raise AttributeError, h).
Proof.
  intros Hu. unfold _get_native_function.
  by erewrite bind_raise by (by apply _getfn_fail).
Qed.

Lemma put_portable r k v h : put r k v (portable r h) = put r k v h.
Proof.
  unfold put. rewrite ann_at_portable.
  unfold portable. destruct (ann_at h r) as [a|] eqn:Ha; [done|].
  unfold set_ann. destruct (h !! r) as [o|] eqn:Ho.
  2:{ apply lookup_ge_None in Ho. rewrite decide_False by lia. simpl.
      apply lookup_ge_None in Ho. by rewrite Ho. }
  pose proof (lookup_lt_Some _ _ _ Ho).
  rewrite decide_True by done. simpl.
  rewrite list_lookup_insert_eq by done. simpl.
  by rewrite list_insert_insert_eq.
Qed.

Lemma _set_item_ok fn k v n h r :
  unwrap h fn = Some r →
  (fn' <- _getfn fn ;; setitem fn' k v) n h = (Ok tt, put r k v h).
Proof.
  intros Hu. erewrite bind_ok by (by apply _getfn_ok).
  rewrite setitem_ok by (apply has_ann_portable_eq; by eapply unwrap_lt).
  by rewrite put_portable.
Qed.

Lemma _set_native_function_ok fn v n h r :
  unwrap h fn = Some r →
  _set_native_function fn v n h = (Ok tt, put r NATIVE_FUNCTION v h).
Proof. apply _set_item_ok. Qed.

Lemma _set_decorator_ok fn v n h r :
  unwrap h fn = Some r →
  _set_decorator fn v n h = (Ok tt, put r DECORATOR v h).
Proof. apply _set_item_ok. Qed.





Lemma portable_id r h : is_Some (ann_at h r) → portable r h = h.
Proof. unfold portable. by intros [a ->]. Qed.







Lemma is_function_put r k v h r' : is_function (put r k v h) r' ↔ is_function h r'.
Proof. unfold is_function. by rewrite kind_at_put. Qed.

Lemma is_function_portable r h r' : is_function (portable r h) r' ↔ is_function h r'.
Proof. unfold is_function. by rewrite kind_at_portable. Qed.


Lemma track_put_eq r k v h :
  r < List.length h → track (put r k v h) r k = Some v.
Proof. intros. rewrite track_put by done. by rewrite decide_True. Qed.

(** ** One application of a registered wrapper *)

Section application.
Context (native_decorator : native) (recorded self : ref).
Context (fn w : value) (fr wr f0 : ref) (n : nat) (h h1 : heap).

Hypothesis Hcall : nat_call native_decorator fn (S n) h = (Ok w, h1).
Hypothesis Hfn : unwrap h1 fn = Some fr.
Hypothesis Hwalk : walk (S n) (portable fr h1) (VRef fr) = Ok (VRef f0).
Hypothesis Hw : unwrap h1 w = Some wr.
Hypothesis Hf0 : is_function h1 f0.
Hypothesis Hrec : is_function h1 recorded.
Hypothesis Hwr_f0 : wr ≠ f0.
Hypothesis Hrec_f0 : recorded ≠ f0.
Hypothesis Hds : decorators_ok h1 f0.

End application.






(** ** The queries *)

Lemma get_decorators_ok fn n h r f0 :
  unwrap h fn = Some r →
  walk n (portable r h) (VRef r) = Ok (VRef f0) →
  get_decorators fn n h =
    (Ok (default (VList []) (track h f0 DECORATORS)), portable r h).
Proof.
  intros Hu Hw. unfold get_decorators.
  erewrite bind_ok by (rewrite (_get_native_function_ok _ _ _ _ Hu), Hw; done).
  destruct (walk_ok_inv _ _ _ _ Hw) as (r0&[= <-]&[a Ha]&_).
  erewrite bind_ok by (by apply getattr_annotations_ok).
  rewrite <- (track_portable r). unfold track. rewrite Ha. simpl.
  by destruct (a !! DECORATORS).
Qed.

Lemma untracked_walk n h r :
  r < List.length h → track h r NATIVE_FUNCTION = None →
  walk (S n) (portable r h) (VRef r) = Ok (VRef r).
Proof.
  intros. apply walk_end; [by apply has_ann_portable_eq|by rewrite track_portable].
Qed.

Lemma wrapping_builds_wrapper name body : builds_wrapper (wrapping name body).
Proof.
  intros fn n h. eexists. split; [reflexivity|].
  split; [by eexists _, _, _|]. by intros a k [=].
Qed.


(** ** A new object at the end of the heap *)

Lemma kind_at_app_l h o r : r < List.length h → kind_at (h ++ [o]) r = kind_at h r.
Proof. intros. unfold kind_at. by rewrite lookup_app_l. Qed.

Lemma ann_at_app_l h o r : r < List.length h → ann_at (h ++ [o]) r = ann_at h r.
Proof. intros. unfold ann_at. by rewrite lookup_app_l. Qed.

Lemma track_app_l h o r k : r < List.length h → track (h ++ [o]) r k = track h r k.
Proof. intros. unfold track. by rewrite ann_at_app_l. Qed.


Lemma kind_at_new h o : kind_at (h ++ [o]) (List.length h) = Some (o_kind o).
Proof. unfold kind_at. by rewrite list_lookup_middle. Qed.








(** ** Queries on originals and on their wrappers *)

Lemma walk_original n h f :
  is_function h f → track h f NATIVE_FUNCTION = None →
  walk (S n) (portable f h) (VRef f) = Ok (VRef f).
Proof. intros Hf Hn. apply untracked_walk; [by apply is_function_lt|done]. Qed.

Lemma walk_wrapped n h w f :
  track h w NATIVE_FUNCTION = Some (VRef f) →
  is_Some (ann_at h f) → track h f NATIVE_FUNCTION = None →
  walk (S (S n)) (portable w h) (VRef w) = Ok (VRef f).
Proof.
  intros Hw Ha Hf.
  rewrite (walk_track_step _ _ _ (VRef f)) by (by rewrite track_portable).
  apply walk_end; [by apply has_ann_portable|by rewrite track_portable].
Qed.


Lemma track_has_ann h r k v : track h r k = Some v → is_Some (ann_at h r).
Proof. unfold track. destruct (ann_at h r); [eauto|done]. Qed.


Lemma get_decorators_original n h f :
  is_function h f → track h f NATIVE_FUNCTION = None →
  get_decorators (VRef f) (S n) h =
    (Ok (default (VList []) (track h f DECORATORS)), portable f h).
Proof.
  intros Hf Hn. apply get_decorators_ok; [by apply unwrap_function|].
  by apply walk_original.
Qed.

Lemma get_decorators_wrapped n h w f :
  is_function h w → track h w NATIVE_FUNCTION = Some (VRef f) →
  is_Some (ann_at h f) → track h f NATIVE_FUNCTION = None →
  get_decorators (VRef w) (S (S n)) h =
    (Ok (default (VList []) (track h f DECORATORS)), h).
Proof.
  intros Hfw Hw Ha Hf.
  rewrite (get_decorators_ok _ _ _ w f); [|by apply unwrap_function|by apply walk_wrapped].
  rewrite portable_id; [done|by eapply track_has_ann].
Qed.


(** ** Applying a wrapper to a function of a chain *)


Lemma decorators_ok_default h f :
  decorators_ok h f →
  default (VList []) (track h f DECORATORS) = VList (decorators_of h f).
Proof. unfold decorators_of. by intros [->|[ds ->]]. Qed.

Lemma chain_inv_get_decorators h f ws ds v n :
  chain_inv h f ws ds → v ∈ ws →
  ∃ h', get_decorators v (S (S n)) h = (Ok (VList ds), h').
Proof.
  intros (Hf&Hn&Hds&<-&Hws) Hv. destruct (Hws v Hv) as (t&->&[->|(Ht&Htn&Ha)]).
  - rewrite get_decorators_original by done.
    rewrite decorators_ok_default by done. eauto.
  - rewrite (get_decorators_wrapped _ _ _ f) by done.
    rewrite decorators_ok_default by done. eauto.
Qed.




(** The heap one application leaves: [o] is the function the native
    decorator built. *)
Section after_application.
Context (h : heap) (o : obj) (t self recorded f : ref).
Hypothesis Hf : is_function h f.
Hypothesis Hrec : is_function h recorded.
Hypothesis Hne : recorded ≠ f.

Let w := List.length h.
Let h' := applied t w self recorded f (h ++ [o]).












End after_application.





(** ** A decorator that returns its argument *)

Lemma walk_self_loop n h r :
  track h r NATIVE_FUNCTION = Some (VRef r) → walk n h (VRef r) = Timeout.
Proof.
  intros Hr. induction n as [|n IH]; [done|].
  by rewrite (walk_track_step _ _ _ (VRef r)).
Qed.

(** Registered and applied to an original, it makes the original its own
    [native_function]; [_append_decorator] then never leaves the loop. *)
Lemma passthrough_cycle name d f h n :
  is_function h f → track h f NATIVE_FUNCTION = None → is_function h d →
  ∃ h', new_decorator (passthrough name) d (VRef f) (S n) h = (Timeout, h')
    ∧ is_function h' f ∧ track h' f NATIVE_FUNCTION = Some (VRef f).
Proof.
  intros Hf Hn Hd. pose proof (is_function_lt _ _ Hf) as Hf_lt.
  pose proof (is_function_lt _ _ Hd) as Hd_lt.
  set (h5 := put d NATIVE_FUNCTION (VRef f)
               (put f NATIVE_FUNCTION (VRef f)
                  (put f DECORATOR (VRef d) (portable f h)))).
  assert (is_function h5 f) as Hf5
    by (unfold h5; by rewrite !is_function_put, is_function_portable).
  assert (track h5 f NATIVE_FUNCTION = Some (VRef f)) as Hcycle.
  { unfold h5. rewrite track_put by (by rewrite !length_put, length_portable).
    case_decide; [done|].
    rewrite track_put_eq; [done|]. by rewrite length_put, length_portable. }
  exists (portable f h5). split_and!.
  - unfold new_decorator. erewrite bind_ok by reflexivity.
    erewrite bind_ok.
    2:{ rewrite (_get_native_function_ok _ _ _ f) by (by apply unwrap_function).
        by rewrite walk_original. }
    erewrite bind_ok
      by (apply _set_decorator_ok, unwrap_function; by rewrite is_function_portable).
    erewrite bind_ok.
    2:{ apply _set_native_function_ok, unwrap_function.
        by rewrite is_function_put, is_function_portable. }
    erewrite bind_ok.
    2:{ apply _set_native_function_ok, unwrap_function.
        by rewrite !is_function_put, is_function_portable. }
    fold h5. erewrite bind_timeout; [done|].
    unfold _append_decorator. erewrite bind_timeout; [done|].
    rewrite (_get_native_function_ok _ _ _ f) by (by apply unwrap_function).
    rewrite walk_self_loop; [done|]. by rewrite track_portable.
  - by apply is_function_portable.
  - by rewrite track_portable.
Qed.

Lemma passthrough_diverges name d f h n :
  is_function h f → track h f NATIVE_FUNCTION = None → is_function h d →
  fst (new_decorator (passthrough name) d (VRef f) n h) = Timeout.
Proof.
  intros Hf Hn Hd. destruct n as [|n].
  - unfold new_decorator. erewrite bind_ok by reflexivity.
    erewrite bind_timeout; [done|].
    by rewrite (_get_native_function_ok _ _ _ f) by (by apply unwrap_function).
  - destruct (passthrough_cycle name d f h n) as (h'&->&_); done.
Qed.

(** Once a function is its own [native_function], no query on it
    returns. *)
Lemma cycle_queries_diverge h f m :
  is_function h f → track h f NATIVE_FUNCTION = Some (VRef f) →
  fst (get_real_function (VRef f) m h) = Timeout
  ∧ fst (get_decorators (VRef f) m h) = Timeout.
Proof.
  intros Hf Hc.
  assert (_get_native_function (VRef f) m h = (Timeout, portable f h)) as Hg.
  { rewrite (_get_native_function_ok _ _ _ f) by (by apply unwrap_function).
    rewrite walk_self_loop; [done|]. by rewrite track_portable. }
  split.
  - unfold get_real_function. by rewrite Hg.
  - unfold get_decorators. by erewrite bind_timeout by exact Hg.
Qed.

(** ** C1 *)




(** ** C2 *)




(** ** C5 *)

(** C5: the code breaks the claim.  [rid] is the registered wrapper of
    [lambda fn: fn]; the application [rid(somefunc2)] never returns,
    whatever the fuel, and in the heap it leaves behind [somefunc2] is its
    own [native_function], so that no later [get_real_function] or
    [get_decorators] on it returns either. *)
Theorem passthrough_breaks_acyclicity :
  plain_function heap_rid 0
  ∧ registered heap_rid (passthrough "identity") 1
  ∧ (∀ n, fst (new_decorator (passthrough "identity") 1 (VRef 0) n heap_rid)
          = Timeout)
  ∧ ∀ n m,
      let h' := snd (new_decorator (passthrough "identity") 1 (VRef 0) (S n) heap_rid) in
      track h' 0 NATIVE_FUNCTION = Some (VRef 0)
      ∧ fst (get_real_function (VRef 0) m h') = Timeout
      ∧ fst (get_decorators (VRef 0) m h') = Timeout.
Proof.
  assert (is_function heap_rid 0) as Hf by (by eexists _, _, _).
  assert (is_function heap_rid 1) as Hd by (by eexists _, _, _).
  assert (track heap_rid 0 NATIVE_FUNCTION = None) as Hn by done.
  split_and!.
  - split; [by eexists _, _, _|]. by intros k _.
  - reflexivity.
  - intros n. by apply passthrough_diverges.
  - intros n m.
    destruct (passthrough_cycle "identity" 1 0 heap_rid n Hf Hn Hd) as (h1&Hrun&Hf1&Hc).
    rewrite Hrun. cbn [snd]. split; [done|]. by apply cycle_queries_diverge.
Qed.

(** ** C8 *)



(** ** Registration *)

Lemma decorator_ok nd n h :
  decorator nd n h =
    (Ok (List.length h),
     h ++ [{| o_kind := KFunction (nat_name nd) (nat_doc nd) CNewDecorator;
              o_ann := None |}]).
Proof.
  unfold decorator, bind, def_function, setattr_name_doc, ret.
  rewrite list_lookup_middle by done. f_equal.
  rewrite <- (Nat.add_0_r (List.length h)) at 1. by rewrite insert_app_r.
Qed.

Lemma parametrized_decorator_ok npd n h :
  parametrized_decorator npd n h =
    (Ok (List.length h),
     h ++ [{| o_kind := KFunction (np_name npd) (np_doc npd) CNewParametrizedDecorator;
              o_ann := None |}]).
Proof.
  unfold parametrized_decorator, bind, def_function, setattr_name_doc, ret.
  rewrite list_lookup_middle by done. f_equal.
  rewrite <- (Nat.add_0_r (List.length h)) at 1. by rewrite insert_app_r.
Qed.


(** ** What an application leaves alone *)

Lemma user_function_lt h r : user_function h r → r < List.length h.
Proof.
  intros (name&doc&body&Hk). apply is_function_lt. by exists name, doc, (CUser body).
Qed.

Lemma user_function_app_l h o r : user_function h r → user_function (h ++ [o]) r.
Proof.
  intros Hu. pose proof (user_function_lt _ _ Hu).
  unfold user_function. by rewrite kind_at_app_l.
Qed.

Lemma plain_function_app_l h o g : plain_function h g → plain_function (h ++ [o]) g.
Proof.
  intros [Hk Hu]. pose proof (user_function_lt _ _ Hk). split.
  - by apply user_function_app_l.
  - intros k Hin. rewrite track_app_l by done. by apply Hu.
Qed.

(** What [decorator] returns is [registered]; the plain functions stay
    plain. *)
Lemma decorator_registers nd n h :
  ∃ h', decorator nd n h = (Ok (List.length h), h')
    ∧ registered h' nd (List.length h)
    ∧ ∀ f, plain_function h f → plain_function h' f.
Proof.
  eexists. split; [apply decorator_ok|]. split.
  - unfold registered. by rewrite kind_at_new.
  - intros f. apply plain_function_app_l.
Qed.

Lemma parametrized_decorator_registers npd n h :
  ∃ h', parametrized_decorator npd n h = (Ok (List.length h), h')
    ∧ registered_parametrized h' npd (List.length h)
    ∧ ∀ f, plain_function h f → plain_function h' f.
Proof.
  eexists. split; [apply parametrized_decorator_ok|]. split.
  - unfold registered_parametrized. by rewrite kind_at_new.
  - intros f. apply plain_function_app_l.
Qed.














(** ** C7 *)




(** ** C9 *)





(** ** What the queries leave alone *)

Section keeps.
Context {S : Type} (R : S → S → Prop).
Hypothesis Rrefl : ∀ s, R s s.
Hypothesis Rtrans : ∀ a b c, R a b → R b c → R a c.

Lemma keeps_ret {A} (a : A) : keeps R (ret a).
Proof. intros n s. apply Rrefl. Qed.

Lemma keeps_same {A} (m : ST S A) : (∀ n s, snd (m n s) = s) → keeps R m.
Proof. intros Hm n s. rewrite Hm. apply Rrefl. Qed.

Lemma keeps_bind {A B} (m : ST S A) (k : A → ST S B) :
  keeps R m → (∀ a, keeps R (k a)) → keeps R (bind m k).
Proof.
  intros Hm Hk n s. unfold bind. specialize (Hm n s).
  destruct (m n s) as [[a|e|] s']; simpl in *; [|done..].
  eapply Rtrans; [exact Hm|apply Hk].
Qed.

Lemma keeps_with_fuel {A} (f : nat → ST S A) :
  (∀ fuel, keeps R (f fuel)) → keeps R (with_fuel f).
Proof. intros Hf n s. apply Hf. Qed.

Lemma keeps_for_each {A B} (l : list A) (acc : B) (body : A → B → ST S B) :
  (∀ x acc, keeps R (body x acc)) → keeps R (for_each l acc body).
Proof.
  intros Hbody. revert acc. induction l as [|x l IH]; intros acc; simpl.
  - apply keeps_ret.
  - apply keeps_bind; [apply Hbody|apply IH].
Qed.
End keeps.

Lemma only_portable_refl h : only_portable h h.
Proof. split; [done|]. intros r. split; [done|by left]. Qed.

Lemma only_portable_trans h1 h2 h3 :
  only_portable h1 h2 → only_portable h2 h3 → only_portable h1 h3.
Proof.
  intros [Hl1 H1] [Hl2 H2]. split; [congruence|]. intros r.
  destruct (H1 r) as [Hk1 Ha1], (H2 r) as [Hk2 Ha2]. split; [congruence|].
  destruct Ha1 as [Ha1|[Ha1 Ha1']], Ha2 as [Ha2|[Ha2 Ha2']].
  - left. congruence.
  - right. split; congruence.
  - right. split; congruence.
  - congruence.
Qed.

Lemma only_portable_track h h' r k : only_portable h h' → track h' r k = track h r k.
Proof.
  intros [_ H]. destruct (H r) as [_ [Ha|[Ha Ha']]]; unfold track.
  - by rewrite Ha.
  - by rewrite Ha, Ha'.
Qed.

Lemma only_portable_gen_refl s : only_portable_gen s s.
Proof. apply only_portable_refl. Qed.

Lemma only_portable_gen_trans a b c :
  only_portable_gen a b → only_portable_gen b c → only_portable_gen a c.
Proof. apply only_portable_trans. Qed.

Lemma only_portable_set_empty r h :
  ann_at h r = None → only_portable h (set_ann r ∅ h).
Proof.
  intros Ha. split; [apply length_set_ann|]. intros r'.
  split; [apply kind_at_set_ann|]. rewrite ann_at_set_ann.
  case_decide as Hr; [|by left]. destruct Hr as [<- _]. by right.
Qed.

Lemma only_portable_portable r h : only_portable h (portable r h).
Proof.
  unfold portable. destruct (ann_at h r) eqn:Ha; [apply only_portable_refl|].
  by apply only_portable_set_empty.
Qed.

Lemma keeps_make_portable fn : keeps only_portable (_make_portable fn).
Proof.
  intros n h. destruct fn as [| |r|];
    try (rewrite _make_portable_fail by done; apply only_portable_refl).
  destruct (decide (r < List.length h)).
  - rewrite _make_portable_ok by done. apply only_portable_portable.
  - rewrite _make_portable_fail by (intros ? [= <-]; lia). apply only_portable_refl.
Qed.

Lemma keeps_bind_M {A B} (m : M A) (k : A → M B) :
  keeps only_portable m → (∀ a, keeps only_portable (k a)) →
  keeps only_portable (bind m k).
Proof. apply keeps_bind, only_portable_trans. Qed.

Lemma keeps_bind_G {A B} (m : G A) (k : A → G B) :
  keeps only_portable_gen m → (∀ a, keeps only_portable_gen (k a)) →
  keeps only_portable_gen (bind m k).
Proof. apply keeps_bind, only_portable_gen_trans. Qed.

Lemma keeps_same_M {A} (m : M A) : (∀ n h, snd (m n h) = h) → keeps only_portable m.
Proof. apply keeps_same, only_portable_refl. Qed.

Lemma keeps_ret_M {A} (a : A) : keeps only_portable (ret a).
Proof. apply keeps_ret, only_portable_refl. Qed.

Lemma keeps_ret_G {A} (a : A) : keeps only_portable_gen (ret a).
Proof. apply keeps_ret, only_portable_gen_refl. Qed.

Lemma keeps_type_of fn : keeps only_portable (type_of fn).
Proof. by apply keeps_same_M. Qed.

Lemma keeps_getattr_annotations fn : keeps only_portable (getattr_annotations fn).
Proof. apply keeps_same_M. intros. apply getattr_annotations_heap. Qed.

Lemma keeps_getattr_func fn : keeps only_portable (getattr_func fn).
Proof.
  apply keeps_same_M. intros n h. unfold getattr_func.
  destruct fn; try done. destruct (h !! r); [|done]. by destruct (o_kind o).
Qed.

Lemma keeps_getattr_name fn : keeps only_portable (getattr_name fn).
Proof.
  apply keeps_same_M. intros n h. unfold getattr_name.
  destruct fn; try done. destruct (h !! r); [|done]. by destruct (o_kind o).
Qed.

Lemma keeps_getattr_class cls : keeps only_portable (getattr_class cls).
Proof.
  apply keeps_same_M. intros n h. unfold getattr_class.
  destruct cls as [[| |r|]| |]; try done.
  destruct (h !! r); [|done]. by destruct (o_kind o).
Qed.

Lemma keeps_class_dict cls : keeps only_portable (class_dict cls).
Proof.
  apply keeps_same_M. intros n h. unfold class_dict.
  destruct cls as [[| |r|]| |]; try done.
  destruct (h !! r) as [[[] ?]|]; done.
Qed.

Lemma keeps_dir cls : keeps only_portable (dir cls).
Proof.
  apply keeps_same_M. intros n h. unfold dir, with_fuel.
  destruct cls; try done. by destruct (attribute_names n h r).
Qed.

Lemma keeps_contains x seq : keeps only_portable (contains x seq).
Proof. apply keeps_same_M. intros n h. by destruct seq. Qed.

Lemma keeps_len seq : keeps only_portable (len seq).
Proof. apply keeps_same_M. intros n h. by destruct seq. Qed.

Lemma keeps_getitem fn k : keeps only_portable (getitem fn k).
Proof.
  apply keeps_bind_M; [apply keeps_getattr_annotations|].
  intros a. destruct (a !! k); by apply keeps_same_M.
Qed.

Lemma keeps_getfn fn : keeps only_portable (_getfn fn).
Proof.
  apply keeps_bind_M; [apply keeps_type_of|]. intros t.
  apply keeps_bind_M; [|intros; apply keeps_make_portable].
  case_bool_decide; [apply keeps_getattr_func|apply keeps_ret_M].
Qed.

Lemma keeps_native_loop fuel v : keeps only_portable (native_loop fuel v).
Proof.
  intros n h. rewrite native_loop_walk. apply only_portable_refl.
Qed.

Lemma keeps_get_native_function fn : keeps only_portable (_get_native_function fn).
Proof.
  apply keeps_bind_M; [apply keeps_getfn|]. intros v.
  apply keeps_with_fuel. intros fuel. apply keeps_native_loop.
Qed.

Lemma keeps_get_decorators fn : keeps only_portable (get_decorators fn).
Proof.
  apply keeps_bind_M; [apply keeps_get_native_function|]. intros v.
  apply keeps_bind_M; [apply keeps_getattr_annotations|]. intros a.
  destruct (a !! DECORATORS); apply keeps_ret_M.
Qed.

Lemma keeps_is_decorated_with fn d : keeps only_portable (is_decorated_with fn d).
Proof.
  apply keeps_bind_M; [apply keeps_get_decorators|]. intros ds.
  apply keeps_contains.
Qed.

Lemma keeps_lift {A} (m : M A) : keeps only_portable m → keeps only_portable_gen (lift m).
Proof.
  intros Hm n [h out]. unfold lift, only_portable_gen. simpl.
  specialize (Hm n h). by destruct (m n h).
Qed.

Lemma keeps_yield e : keeps only_portable_gen (yield e).
Proof. intros n s. apply only_portable_refl. Qed.

Lemma keeps_for_each_G {A B} (l : list A) (acc : B) (body : A → B → G B) :
  (∀ x acc, keeps only_portable_gen (body x acc)) →
  keeps only_portable_gen (for_each l acc body).
Proof.
  apply keeps_for_each; [apply only_portable_gen_refl|apply only_portable_gen_trans].
Qed.

Lemma keeps_class_loop fuel cls : keeps only_portable (class_loop fuel cls).
Proof.
  revert cls. induction fuel as [|fuel IH]; intros cls; [by apply keeps_same_M|].
  simpl. apply keeps_bind_M; [apply keeps_getattr_class|]. intros c.
  destruct c; [apply IH|apply IH|apply keeps_ret_M].
Qed.

Lemma keeps_decorated_methods cls d : keeps only_portable_gen (decorated_methods cls d).
Proof.
  unfold decorated_methods.
  apply keeps_bind_G.
  { apply keeps_lift, keeps_with_fuel. intros fuel. apply keeps_class_loop. }
  intros c. apply keeps_bind_G; [apply keeps_lift, keeps_class_dict|]. intros dict.
  apply keeps_for_each_G. intros methodname [].
  apply keeps_bind_G; [apply keeps_lift, keeps_type_of|]. intros t.
  case_bool_decide; [|apply keeps_ret_G].
  apply keeps_bind_G; [apply keeps_lift, keeps_get_decorators|]. intros ds.
  apply keeps_bind_G; [apply keeps_lift, keeps_contains|]. intros b.
  destruct b; [apply keeps_yield|apply keeps_ret_G].
Qed.

Lemma keeps_scan_class_element body fn cls_el names :
  (∀ e, keeps only_portable_gen (body e)) →
  keeps only_portable_gen (scan_class_element body fn cls_el names).
Proof.
  intros Hbody. unfold scan_class_element.
  apply keeps_bind_G; [apply keeps_lift, keeps_class_dict|]. intros d.
  apply keeps_bind_G; [apply keeps_lift, keeps_type_of|]. intros t.
  destruct (is_function_type t); [|apply keeps_ret_G].
  apply keeps_bind_G; [apply keeps_lift, keeps_getfn|]. intros method.
  apply keeps_bind_G; [apply keeps_lift, keeps_get_decorators|]. intros ds.
  apply keeps_bind_G; [apply keeps_lift, keeps_len|]. intros k.
  case_bool_decide; [|apply keeps_ret_G].
  apply keeps_bind_G; [apply keeps_lift, keeps_getitem|]. intros native_fn.
  apply keeps_bind_G; [apply keeps_lift, keeps_getattr_name|]. intros fname.
  case_bool_decide; [|apply keeps_ret_G].
  apply keeps_bind_G; [apply keeps_lift, keeps_getattr_name|]. intros cname.
  apply keeps_bind_G; [apply Hbody|]. intros _. apply keeps_ret_G.
Qed.

Lemma keeps_scan_module_element body module em ef el names :
  (∀ e, keeps only_portable_gen (body e)) →
  keeps only_portable_gen (scan_module_element body module em ef el names).
Proof.
  intros Hbody. unfold scan_module_element.
  apply keeps_bind_G; [apply keeps_lift, keeps_type_of|]. intros t.
  apply keeps_bind_G.
  { destruct (negb ef && is_function_type t); [|apply keeps_ret_G].
    apply keeps_bind_G; [apply keeps_lift, keeps_getfn|]. intros fn.
    apply keeps_bind_G; [apply keeps_lift, keeps_get_decorators|]. intros ds.
    apply keeps_bind_G; [apply keeps_lift, keeps_len|]. intros k.
    case_bool_decide; [|apply keeps_ret_G].
    apply keeps_bind_G; [apply keeps_lift, keeps_getitem|]. intros native_fn.
    apply keeps_bind_G; [apply keeps_lift, keeps_getattr_name|]. intros fname.
    case_bool_decide; [|apply keeps_ret_G].
    apply keeps_bind_G; [apply Hbody|]. intros _. apply keeps_ret_G. }
  intros st. simpl.
  apply keeps_bind_G; [apply keeps_lift, keeps_type_of|]. intros t'.
  destruct (negb em && bool_decide (t' = TType)); [|apply keeps_ret_G].
  apply keeps_bind_G; [apply keeps_lift, keeps_dir|]. intros cls_names.
  apply keeps_for_each_G. intros x acc. by apply keeps_scan_class_element.
Qed.

Lemma keeps_for_all_decorated_module_functions body module em ef :
  (∀ e, keeps only_portable_gen (body e)) →
  keeps only_portable_gen (for_all_decorated_module_functions body module em ef).
Proof.
  intros Hbody. apply keeps_for_each_G. intros x acc.
  by apply keeps_scan_module_element.
Qed.

Lemma keeps_run {A} (g : G A) fuel h :
  keeps only_portable_gen g → only_portable h (snd (run g fuel h)).
Proof.
  intros Hg. specialize (Hg fuel (h, [])). unfold run, only_portable_gen in *.
  destruct (g fuel (h, [])) as [r [h' out]]. done.
Qed.

(** ** C10 *)

(** C10: whatever its outcome, a query leaves every object what it was
    and every annotation map with the entries it had; the only change is
    that an object without annotations may have got the empty map.  So
    no key, and none of the three tracking keys, is added, removed or
    changed on any object. *)
Theorem queries_leave_tracking_state q fuel h :
  only_portable h (heap_after q fuel h)
  ∧ ∀ r k, track (heap_after q fuel h) r k = track h r k.
Proof.
  assert (only_portable h (heap_after q fuel h)) as Hop.
  { destruct q; simpl.
    - apply keeps_get_native_function.
    - apply keeps_get_decorators.
    - apply keeps_is_decorated_with.
    - apply keeps_run, keeps_decorated_methods.
    - apply keeps_run, keeps_for_all_decorated_module_functions, keeps_yield.
    - apply keeps_run, keeps_for_all_decorated_module_functions. intros e.
      apply keeps_bind_G; [apply keeps_lift, keeps_get_decorators|]. intros ds.
      apply keeps_bind_G; [apply keeps_lift, keeps_contains|]. intros b.
      destruct b; [apply keeps_yield|apply keeps_ret_G]. }
  split; [done|]. intros r k. by apply only_portable_track.
Qed.

(** ** What a module scan yields *)

Section triples.
Context (I : heap → list entry → Prop).

Lemma triple_ret {A} (P : list entry → Prop) (a : A) (Q : A → list entry → Prop) :
  (∀ out, P out → Q a out) → triple I P (ret a) Q.
Proof. intros HPQ n h out HI HP. simpl. split; [done|]. intros a' [= <-]. auto. Qed.

Lemma triple_bind {A B} P (m : G A) Qm (k : A → G B) Q :
  triple I P m Qm → (∀ a, triple I (Qm a) (k a) Q) → triple I P (bind m k) Q.
Proof.
  intros Hm Hk n h out HI HP. destruct (Hm n h out HI HP) as [HI' HQm].
  unfold bind. destruct (m n (h, out)) as [[a|e|] [h' out']]; simpl in *; [|done..].
  apply Hk; [done|]. by apply HQm.
Qed.

Lemma triple_pure {A} (φ : Prop) P (g : G A) Q :
  (φ → triple I P g Q) → triple I (fun out => P out ∧ φ) g Q.
Proof. intros Hg n h out HI [HP Hφ]. by apply Hg. Qed.

Lemma triple_for_each {A B} (Q : B → list entry → Prop) (l : list A)
    (body : A → B → G B) :
  (∀ x acc, triple I (Q acc) (body x acc) Q) →
  ∀ acc, triple I (Q acc) (for_each l acc body) Q.
Proof.
  intros Hbody. induction l as [|x l IH]; intros acc; simpl.
  - by apply triple_ret.
  - eapply triple_bind; [apply Hbody|apply IH].
Qed.
End triples.

Section lifted.
Context (h0 : heap) (J : list entry → Prop).

(** A lifted query keeps the entries; what it returns satisfies whatever
    [φ] holds of its results in heaps that differ from [h0] by empty
    annotation maps only. *)
Lemma triple_lift {A} (m : M A) (φ : A → Prop) (P : list entry → Prop) :
  keeps only_portable m →
  (∀ n h a, only_portable h0 h → fst (m n h) = Ok a → φ a) →
  triple (gen_inv h0 J) P (lift m) (fun a out => P out ∧ φ a).
Proof.
  intros Hk Hφ n h out (Hop&HJ) HP. unfold lift. simpl.
  specialize (Hk n h). specialize (Hφ n h).
  destruct (m n h) as [r h']. simpl in *. split.
  - split; [by eapply only_portable_trans|done].
  - intros a ->. split; [done|]. by apply Hφ.
Qed.

Lemma triple_lift_any {A} (m : M A) (P : list entry → Prop) :
  keeps only_portable m → triple (gen_inv h0 J) P (lift m) (fun _ out => P out).
Proof.
  intros Hk. intros n h out HI HP.
  destruct (triple_lift m (fun _ => True) P Hk (fun _ _ _ _ _ => Logic.I) n h out HI HP)
    as [? HQ].
  split; [done|]. intros a Ha. by destruct (HQ a Ha).
Qed.
End lifted.

Arguments triple_lift {h0 J A} m φ P _ _.

Section scan.
Context (h0 : heap) (module : namespace) (exclude_methods exclude_functions : bool).

Local Abbreviation inv :=
  (gen_inv h0 (scan_entries h0 module exclude_methods exclude_functions)).

Lemma triple_yield e names :
  entry_ok h0 module exclude_methods exclude_functions e →
  entry_fname e ∉ names →
  triple inv (fun out => names = entry_fname <$> out) (yield e)
    (fun _ out => names ++ [entry_fname e] = entry_fname <$> out).
Proof.
  intros He Hnew n h out (Hop&Hok&Hnd) ->. simpl. split.
  - split; [done|]. split.
    + apply Forall_app. split; [done|]. by apply Forall_singleton.
    + rewrite fmap_app. apply NoDup_app. split_and!; [done| |apply NoDup_singleton].
      intros x Hx ->%list_elem_of_singleton. done.
  - intros _ _. by rewrite fmap_app.
Qed.

Lemma class_dict_result n h fn d :
  only_portable h0 h → fst (class_dict (CVal fn) n h) = Ok d →
  ∃ r c, fn = VRef r ∧ kind_at h0 r = Some (KClass c) ∧ d = cls_dict c.
Proof.
  intros [_ Hop]. unfold class_dict. destruct fn as [| |r|]; try done.
  destruct (Hop r) as [Hk _].
  destruct (h !! r) as [[k a]|] eqn:E; [|done]. destruct k; try done. simpl.
  intros [= <-]. exists r, c. split_and!; [done| |done].
  rewrite <- Hk. unfold kind_at. by rewrite E.
Qed.

Lemma getattr_name_result n h fn name :
  only_portable h0 h → fst (getattr_name fn n h) = Ok name →
  ∃ r, fn = VRef r ∧ name_at h0 r = Some name.
Proof.
  intros [_ Hop]. unfold getattr_name. destruct fn as [| |r|]; try done.
  destruct (Hop r) as [Hk _].
  destruct (h !! r) as [[k a]|] eqn:E; [|done].
  destruct k; try done; simpl; intros [= <-]; exists r; (split; [done|]);
    unfold name_at; rewrite <- Hk; unfold kind_at; by rewrite E.
Qed.

Lemma triple_scan_class_element fn cls_el names :
  exclude_methods = false →
  triple inv (fun out => names = entry_fname <$> out)
    (scan_class_element yield fn cls_el names)
    (fun names' out => names' = entry_fname <$> out).
Proof.
  intros Hem. unfold scan_class_element.
  eapply triple_bind;
    [apply (triple_lift _ _ _ (keeps_class_dict _) (fun n h => class_dict_result n h fn))|].
  intros d. apply triple_pure. intros (r&c&->&Hc&->).
  eapply triple_bind; [apply triple_lift_any, keeps_type_of|]. intros t.
  destruct (is_function_type t); [|by apply triple_ret].
  eapply triple_bind; [apply triple_lift_any, keeps_getfn|]. intros method.
  eapply triple_bind; [apply triple_lift_any, keeps_get_decorators|]. intros ds.
  eapply triple_bind; [apply triple_lift_any, keeps_len|]. intros k.
  case_bool_decide; [|by apply triple_ret].
  eapply triple_bind; [apply triple_lift_any, keeps_getitem|]. intros native_fn.
  eapply triple_bind;
    [apply (triple_lift _ _ _ (keeps_getattr_name _)
              (fun n h => getattr_name_result n h native_fn))|].
  intros fname. apply triple_pure. intros (r'&_&Hfname).
  case_bool_decide as Hnew; [|by apply triple_ret].
  eapply triple_bind;
    [apply (triple_lift _ _ _ (keeps_getattr_name _)
              (fun n h => getattr_name_result n h (VRef r)))|].
  intros cname. apply triple_pure. intros (r''&Heq&Hcname).
  assert (r'' = r) as -> by congruence. clear Heq.
  eapply triple_bind.
  - apply (triple_yield (ModuleMethod cname fname (dict_get (cls_dict c) fname)));
      [|exact Hnew].
    simpl. split; [exact Hem|]. split; [|by exists r'].
    eexists _, _. split; [exact Hc|]. split; [|reflexivity].
    unfold name_at in Hcname. rewrite Hc in Hcname. congruence.
  - intros []. by apply triple_ret.
Qed.

Lemma triple_scan_module_element el names :
  triple inv (fun out => names = entry_fname <$> out)
    (scan_module_element yield module exclude_methods exclude_functions el names)
    (fun names' out => names' = entry_fname <$> out).
Proof.
  unfold scan_module_element.
  eapply triple_bind; [apply triple_lift_any, keeps_type_of|]. intros t.
  eapply (triple_bind _ _ _ (fun st out => snd st = entry_fname <$> out)).
  { destruct (negb exclude_functions && is_function_type t) eqn:Hcond;
      [|by apply triple_ret].
    apply andb_true_iff in Hcond as [Hef%negb_true_iff _].
    eapply triple_bind; [apply triple_lift_any, keeps_getfn|]. intros fn.
    eapply triple_bind; [apply triple_lift_any, keeps_get_decorators|]. intros ds.
    eapply triple_bind; [apply triple_lift_any, keeps_len|]. intros k.
    case_bool_decide; [|by apply triple_ret].
    eapply triple_bind; [apply triple_lift_any, keeps_getitem|]. intros native_fn.
    eapply triple_bind;
      [apply (triple_lift _ _ _ (keeps_getattr_name _)
                (fun n h => getattr_name_result n h native_fn))|].
    intros fname. apply triple_pure. intros (r'&_&Hfname).
    case_bool_decide as Hnew; [|by apply triple_ret].
    eapply triple_bind.
    - apply (triple_yield (ModuleFunction fname (dict_get module fname)));
        [|exact Hnew].
      simpl. split; [exact Hef|]. split; [reflexivity|by exists r'].
    - intros []. by apply triple_ret. }
  intros [fn names']. simpl.
  eapply triple_bind; [apply triple_lift_any, keeps_type_of|]. intros t'.
  destruct (negb exclude_methods && bool_decide (t' = TType)) eqn:Hcond;
    [|by apply triple_ret].
  apply andb_true_iff in Hcond as [Hem%negb_true_iff _].
  eapply triple_bind; [apply triple_lift_any, keeps_dir|]. intros cls_names.
  apply (triple_for_each _ (fun names out => names = entry_fname <$> out)).
  intros x acc. by apply triple_scan_class_element.
Qed.

Lemma triple_all_decorated_module_functions :
  triple inv (fun out => [] = entry_fname <$> out)
    (all_decorated_module_functions module exclude_methods exclude_functions)
    (fun names out => names = entry_fname <$> out).
Proof.
  apply (triple_for_each _ (fun names out => names = entry_fname <$> out)).
  intros x acc. apply triple_scan_module_element.
Qed.
End scan.

Lemma run_out {A} (g : G A) fuel h : fst (fst (run g fuel h)) = snd (snd (g fuel (h, []))).
Proof. unfold run. by destruct (g fuel (h, [])) as [r [h' out]]. Qed.

Lemma run_res {A} (g : G A) fuel h : snd (fst (run g fuel h)) = fst (g fuel (h, [])).
Proof. unfold run. by destruct (g fuel (h, [])) as [r [h' out]]. Qed.

(** ** C4 *)

(** The three names of the module resolve to the one name [somefunc2]:
    one entry. *)
Example aliases_yield_once :
  fst (run aliases_session 2 heap_rjd) = ([ModuleFunction "somefunc2" (VRef 2)],
                                            Ok ["somefunc2"%string]).
Proof. by vm_compute. Qed.


(** The resolved names are shared by all classes of the module: of two
    decorated methods of the same name in two classes, the scan yields
    the first. *)
Example same_name_in_two_classes :
  fst (run two_classes_session 2 heap_run_run_rjd)
  = ([ModuleMethod "A" "run" (VRef 3)], Ok ["run"%string]).
Proof. by vm_compute. Qed.

(** ** What [decorated_methods] yields *)

Lemma triple_for_each_in {A B} (I : heap → list entry → Prop)
    (Q : B → list entry → Prop) (l : list A) (body : A → B → G B) :
  (∀ x acc, x ∈ l → triple I (Q acc) (body x acc) Q) →
  ∀ acc, triple I (Q acc) (for_each l acc body) Q.
Proof.
  induction l as [|x l IH]; intros Hbody acc; simpl.
  - by apply triple_ret.
  - eapply triple_bind; [apply Hbody; set_solver|].
    intros acc'. apply IH. intros y acc'' Hy. apply Hbody. set_solver.
Qed.

Lemma dict_get_elem (d : list (string * value)) name :
  name ∈ d.*1 → (name, dict_get d name) ∈ d.
Proof.
  induction d as [|[k v] d IH]; simpl; [by intros ?%not_elem_of_nil|].
  destruct (String.eqb k name) eqn:E.
  - apply String.eqb_eq in E as ->. intros _. left.
  - intros [Hk|Hin]%elem_of_cons.
    + simpl in Hk. subst. by rewrite String.eqb_refl in E.
    + right. by apply IH.
Qed.

Section members.
Context (h0 : heap).

Local Abbreviation minv := (gen_inv h0 (Forall (member_ok h0))).

Lemma class_dict_any_result n h cls d :
  only_portable h0 h → fst (class_dict cls n h) = Ok d →
  d = [] ∨ ∃ r c, kind_at h0 r = Some (KClass c) ∧ d = cls_dict c.
Proof.
  intros Hop. destruct cls as [fn| |]; [|simpl; intros [= <-]; by left..].
  intros Hd. destruct (class_dict_result h0 n h fn d Hop Hd) as (r&c&_&?&?).
  right. by exists r, c.
Qed.

Lemma type_of_function_result n h v t :
  only_portable h0 h → fst (type_of v n h) = Ok t →
  t = TFunction → ∃ r, v = VRef r ∧ is_function h0 r.
Proof.
  intros [_ Hop]. unfold type_of. simpl. intros [= <-].
  destruct v as [| |r|]; try done. rewrite typ_kind.
  destruct (Hop r) as [Hk' _].
  destruct (kind_at h r) as [[]|] eqn:Hk; try done; [|by destruct (cls_meta c)].
  intros _. exists r. split; [done|]. unfold is_function. rewrite <- Hk'.
  by eexists _, _, _.
Qed.

Lemma triple_member_yield e :
  member_ok h0 e →
  triple minv (fun _ => True) (yield e) (fun _ _ => True).
Proof.
  intros He n h out (Hop&Hok) _. simpl. split; [|done].
  split; [done|]. apply Forall_app. split; [done|]. by apply Forall_singleton.
Qed.

Lemma triple_decorated_methods cls d :
  triple minv (fun _ => True) (decorated_methods cls d) (fun _ _ => True).
Proof.
  unfold decorated_methods.
  eapply triple_bind.
  { apply triple_lift_any, keeps_with_fuel. intros fuel. apply keeps_class_loop. }
  intros c.
  eapply triple_bind;
    [apply (triple_lift _ _ _ (keeps_class_dict _)
              (fun n h => class_dict_any_result n h c))|].
  intros dict. apply triple_pure. intros Hdict.
  apply (triple_for_each_in _ (fun _ _ => True)). intros methodname [] Hin.
  eapply triple_bind;
    [apply (triple_lift _ _ _ (keeps_type_of _)
              (fun n h => type_of_function_result n h (dict_get dict methodname)))|].
  intros t. apply triple_pure. intros Ht.
  case_bool_decide as Hfun; [|by apply triple_ret].
  destruct (Ht Hfun) as (r&Hr&Hf).
  eapply triple_bind; [apply triple_lift_any, keeps_get_decorators|]. intros ds.
  eapply triple_bind; [apply triple_lift_any, keeps_contains|]. intros b.
  destruct b; [|by apply triple_ret].
  apply triple_member_yield.
  destruct Hdict as [->|(cr&c'&Hc&->)]; [by apply not_elem_of_nil in Hin|].
  exists methodname, r, cr, c'. split_and!; [by rewrite Hr|done|done|].
  rewrite <- Hr. by apply dict_get_elem.
Qed.
End members.

(** Whatever the class or the instance, every member [decorated_methods]
    yields is a function object bound in the own [__dict__] of a class:
    no static method, no class method, no inherited member. *)
Lemma decorated_methods_members cls d fuel h e :
  e ∈ fst (fst (run (decorated_methods cls d) fuel h)) → member_ok h e.
Proof.
  rewrite run_out.
  destruct (triple_decorated_methods h cls d fuel h []) as [(_&Hok) _].
  { split; [apply only_portable_refl|apply Forall_nil_2]. }
  { done. }
  rewrite Forall_forall in Hok. apply Hok.
Qed.

(** ** C3 *)

(** C3: the code breaks the claim.  [TestClass] declares [somefunc10]
    with [@rjd] and [somefunc20] with [@staticmethod @rjd].
    [decorated_methods], on the class and on an instance alike, yields
    [somefunc10] only, although [is_decorated_with] finds the static
    method decorated with [rjd] and the scan of a module that binds
    [TestClass] yields both methods. *)
Theorem decorated_methods_skips_static_methods :
  fst (test_class 2 heap_fg_rjd) = Ok (6, 7, VRef 3, VRef 5)
  ∧ kind_at heap_test_class 5 = Some (KStaticmethod (VRef 4))
  ∧ fst (run (decorated_methods (VRef 6) (VRef 2)) 2 heap_test_class)
    = ([Method "somefunc10" (VRef 3)], Ok tt)
  ∧ fst (run (decorated_methods (VRef 7) (VRef 2)) 2 heap_test_class)
    = ([Method "somefunc10" (VRef 3)], Ok tt)
  ∧ fst (is_decorated_with (VRef 5) (VRef 2) 2 heap_test_class) = Ok true
  ∧ fst (run (all_decorated_module_functions [("TestClass", VRef 6)] false false)
           2 heap_test_class)
    = ([ModuleMethod "TestClass" "somefunc10" (VRef 3);
        ModuleMethod "TestClass" "somefunc20" (VRef 5)],
       Ok ["somefunc10"%string; "somefunc20"%string]).
Proof. split_and!; by vm_compute. Qed.

(** ** C6 *)

(** C6: the code breaks the claim.  After [def somefunc2 ...] and
    [g = rjd(somefunc2)] a module binds the original and the wrapper; the
    scan yields the entry of [g] and then raises [KeyError] on the
    original, which has decorators and no [native_function] entry.  And
    where a module binds the wrapper only, under another name,
    [module_functions_decorated_with] raises [AttributeError]: it asks
    for the decorators of the value the module binds to the resolved
    name, which is [None]. *)
Theorem module_scans_raise :
  plain_function heap_rjd 0 ∧ registered heap_rjd just_decorator 1
  ∧ fst (run original_in_module_session 2 heap_rjd)
    = ([ModuleFunction "somefunc2" (VRef 0)], Raise KeyError)
  ∧ fst (run renamed_import_session 2 heap_rjd) = ([], Raise AttributeError).
Proof.
  split_and!; [|reflexivity|by vm_compute..].
  split; [by eexists _, _, _|]. by intros k _.
Qed.

(** * Further properties of the registry *)

(** ** The private methods *)

(** X1: [_make_portable] returns the function it got, keeps the
    annotations the function has, gives it the empty map when it has
    none, changes nothing else, and a second call changes nothing. *)
Theorem _make_portable_keeps_annotations r n m h :
  is_function h r →
  ∃ h1, _make_portable (VRef r) n h = (Ok (VRef r), h1)
    ∧ ann_at h1 r = Some (default ∅ (ann_at h r))
    ∧ (∀ r', kind_at h1 r' = kind_at h r')
    ∧ (∀ r', r' ≠ r → ann_at h1 r' = ann_at h r')
    ∧ _make_portable (VRef r) m h1 = (Ok (VRef r), h1).
Proof.
  intros Hf. pose proof (is_function_lt _ _ Hf) as Hlt.
  exists (portable r h). split_and!.
  - by apply _make_portable_ok.
  - rewrite ann_at_portable. destruct (ann_at h r); [done|].
    by rewrite decide_True.
  - intros r'. apply kind_at_portable.
  - intros r' Hne. rewrite ann_at_portable. destruct (ann_at h r'); [done|].
    rewrite decide_False; [done|]. by intros [? _].
  - rewrite _make_portable_ok by (by rewrite length_portable).
    rewrite (portable_id r (portable r h)); [done|]. by apply has_ann_portable_eq.
Qed.

Lemma _make_portable_keeps_annotations_witness :
  ∃ h1, _make_portable (VRef 0) 0 heap_f = (Ok (VRef 0), h1)
    ∧ ann_at h1 0 = Some (default ∅ (ann_at heap_f 0))
    ∧ (∀ r', kind_at h1 r' = kind_at heap_f r')
    ∧ (∀ r', r' ≠ 0 → ann_at h1 r' = ann_at heap_f r')
    ∧ _make_portable (VRef 0) 0 h1 = (Ok (VRef 0), h1).
Proof.
  apply (_make_portable_keeps_annotations 0 0 0 heap_f).
  by eexists _, _, _.
Defined.

Lemma binds_function_unwrap h s f : binds_function h s f → unwrap h (VRef s) = Some f.
Proof.
  intros [Hs Hf]. pose proof (is_function_lt _ _ Hf). simpl.
  destruct Hs as [-> | ->]; by rewrite decide_True.
Qed.

Lemma _getfn_binding h s f n :
  binds_function h s f → _getfn (VRef s) n h = _getfn (VRef f) n h.
Proof.
  intros Hb. rewrite (_getfn_ok _ _ _ f) by (by apply binds_function_unwrap).
  destruct Hb as [_ Hf]. by rewrite (_getfn_ok _ _ _ f) by (by apply unwrap_function).
Qed.

Lemma _get_native_function_binding h s f n :
  binds_function h s f →
  _get_native_function (VRef s) n h = _get_native_function (VRef f) n h.
Proof.
  intros Hb. unfold _get_native_function, bind. by rewrite (_getfn_binding h s f).
Qed.

Lemma get_decorators_binding h s f n :
  binds_function h s f → get_decorators (VRef s) n h = get_decorators (VRef f) n h.
Proof.
  intros Hb. unfold get_decorators, bind.
  by rewrite (_get_native_function_binding h s f).
Qed.

(** X2: a [staticmethod] or [classmethod] object stands for the function
    it binds: [_getfn] returns that function, and every operation of the
    registry, reading or writing, gives for the object what it gives for
    the function, the same outcome and the same heap. *)
Theorem method_binding_forms_are_transparent h s f n d v k :
  binds_function h s f →
  _getfn (VRef s) n h = (Ok (VRef f), portable f h)
  ∧ get_real_function (VRef s) n h = get_real_function (VRef f) n h
  ∧ get_decorators (VRef s) n h = get_decorators (VRef f) n h
  ∧ is_decorated_with (VRef s) d n h = is_decorated_with (VRef f) d n h
  ∧ _get_native_function (VRef s) n h = _get_native_function (VRef f) n h
  ∧ _get_decorator (VRef s) n h = _get_decorator (VRef f) n h
  ∧ _set_decorator (VRef s) v n h = _set_decorator (VRef f) v n h
  ∧ _set_native_function (VRef s) v n h = _set_native_function (VRef f) v n h
  ∧ _append_decorator (VRef s) k n h = _append_decorator (VRef f) k n h.
Proof.
  intros Hb. split_and!.
  - by apply _getfn_ok, binds_function_unwrap.
  - by apply _get_native_function_binding.
  - by apply get_decorators_binding.
  - unfold is_decorated_with, bind. by rewrite (get_decorators_binding h s f).
  - by apply _get_native_function_binding.
  - unfold _get_decorator, bind. by rewrite (_getfn_binding h s f).
  - unfold _set_decorator, bind. by rewrite (_getfn_binding h s f).
  - unfold _set_native_function, bind. by rewrite (_getfn_binding h s f).
  - unfold _append_decorator, bind.
    by rewrite (_get_native_function_binding h s f).
Qed.

Lemma method_binding_forms_are_transparent_witness :
  _getfn (VRef 5) 2 heap_test_class = (Ok (VRef 4), portable 4 heap_test_class)
  ∧ get_real_function (VRef 5) 2 heap_test_class
    = get_real_function (VRef 4) 2 heap_test_class
  ∧ get_decorators (VRef 5) 2 heap_test_class
    = get_decorators (VRef 4) 2 heap_test_class
  ∧ is_decorated_with (VRef 5) (VRef 2) 2 heap_test_class
    = is_decorated_with (VRef 4) (VRef 2) 2 heap_test_class
  ∧ _get_native_function (VRef 5) 2 heap_test_class
    = _get_native_function (VRef 4) 2 heap_test_class
  ∧ _get_decorator (VRef 5) 2 heap_test_class
    = _get_decorator (VRef 4) 2 heap_test_class
  ∧ _set_decorator (VRef 5) VNone 2 heap_test_class
    = _set_decorator (VRef 4) VNone 2 heap_test_class
  ∧ _set_native_function (VRef 5) VNone 2 heap_test_class
    = _set_native_function (VRef 4) VNone 2 heap_test_class
  ∧ _append_decorator (VRef 5) 2 2 heap_test_class
    = _append_decorator (VRef 4) 2 2 heap_test_class.
Proof.
  apply (method_binding_forms_are_transparent heap_test_class 5 4 2 (VRef 2) VNone 2).
  split; [by left|]. by eexists _, _, _.
Defined.











(** ** The queries *)

Lemma _get_native_function_inv fn n h v h1 :
  _get_native_function fn n h = (Ok v, h1) →
  ∃ r0 r, unwrap h fn = Some r0 ∧ h1 = portable r0 h ∧ v = VRef r
    ∧ walk n h1 (VRef r0) = Ok (VRef r)
    ∧ is_Some (ann_at h1 r) ∧ track h1 r NATIVE_FUNCTION = None.
Proof.
  intros Hg. destruct (unwrap h fn) as [r0|] eqn:Hu.
  - rewrite (_get_native_function_ok _ _ _ _ Hu) in Hg.
    injection Hg as Hw <-.
    destruct (walk_ok_inv _ _ _ _ Hw) as (r&->&Ha&Hn). by exists r0, r.
  - by rewrite (_get_native_function_fail _ _ _ Hu) in Hg.
Qed.

Lemma walk_fuel_pos n h v v' : walk n h v = Ok v' → ∃ n', n = S n'.
Proof. destruct n; [done|]. by exists n. Qed.

Lemma _get_native_function_again fn n h r h1 :
  _get_native_function fn n h = (Ok (VRef r), h1) → is_function h1 r →
  _get_native_function (VRef r) n h1 = (Ok (VRef r), h1).
Proof.
  intros Hg Hf.
  destruct (_get_native_function_inv _ _ _ _ _ Hg) as (r0&r'&_&_&[= <-]&Hw&Ha&Hn).
  destruct (walk_fuel_pos _ _ _ _ Hw) as [n' ->].
  rewrite (_get_native_function_ok _ _ _ r) by (by apply unwrap_function).
  rewrite portable_id by done. by rewrite walk_end.
Qed.

(** X6: whatever [get_real_function] returns is an object without a
    [native_function] entry; when it is a function, asking for its real
    function returns it again and changes nothing. *)
Theorem get_real_function_idempotent fn n h v h1 :
  get_real_function fn n h = (Ok v, h1) →
  ∃ r, v = VRef r ∧ track h1 r NATIVE_FUNCTION = None
    ∧ (is_function h1 r → get_real_function v n h1 = (Ok v, h1)).
Proof.
  intros Hg. unfold get_real_function in *.
  destruct (_get_native_function_inv _ _ _ _ _ Hg) as (r0&r&_&_&->&_&_&Hn).
  exists r. split_and!; [done..|]. intros Hf.
  by apply (_get_native_function_again fn n h).
Qed.

Lemma get_real_function_idempotent_witness :
  ∃ r, VRef 0 = VRef r ∧ track (portable 0 heap_f) r NATIVE_FUNCTION = None
    ∧ (is_function (portable 0 heap_f) r →
       get_real_function (VRef 0) 1 (portable 0 heap_f)
       = (Ok (VRef 0), portable 0 heap_f)).
Proof.
  apply (get_real_function_idempotent (VRef 0) 1 heap_f (VRef 0) (portable 0 heap_f)).
  reflexivity.
Defined.

(** X7: the decorators of a function are those of its real function:
    when [get_real_function(fn)] returns a function, [get_decorators] and
    [is_decorated_with] give for [fn] what they give for that function
    afterwards. *)
Theorem queries_go_through_the_real_function fn n h r h1 d :
  get_real_function fn n h = (Ok (VRef r), h1) → is_function h1 r →
  get_decorators fn n h = get_decorators (VRef r) n h1
  ∧ is_decorated_with fn d n h = is_decorated_with (VRef r) d n h1.
Proof.
  intros Hg Hf. unfold get_real_function in Hg.
  pose proof (_get_native_function_again _ _ _ _ _ Hg Hf) as Hagain.
  assert (get_decorators fn n h = get_decorators (VRef r) n h1) as Heq.
  { unfold get_decorators, bind. by rewrite Hg, Hagain. }
  split; [done|]. unfold is_decorated_with, bind. by rewrite Heq.
Qed.

Lemma queries_go_through_the_real_function_witness :
  get_decorators (VRef 5) 2 heap_test_class = get_decorators (VRef 1) 2 heap_test_class
  ∧ is_decorated_with (VRef 5) (VRef 2) 2 heap_test_class
    = is_decorated_with (VRef 1) (VRef 2) 2 heap_test_class.
Proof.
  apply (queries_go_through_the_real_function (VRef 5) 2 heap_test_class 1
           heap_test_class (VRef 2)).
  - by vm_compute.
  - by eexists _, _, _.
Defined.

(** ** Values that are no objects *)

(** X8: [None], a number or a list takes no attributes: every operation
    of the registry raises [AttributeError] on it and changes nothing. *)
Theorem operations_need_an_object v n h d w k :
  takes_no_attributes v →
  _make_portable v n h = (Raise AttributeError, h)
  ∧ _getfn v n h = (Raise AttributeError, h)
  ∧ get_real_function v n h = (Raise AttributeError, h)
  ∧ get_decorators v n h = (Raise AttributeError, h)
  ∧ is_decorated_with v d n h = (Raise AttributeError, h)
  ∧ _get_native_function v n h = (Raise AttributeError, h)
  ∧ _get_decorator v n h = (Raise AttributeError, h)
  ∧ _set_decorator v w n h = (Raise AttributeError, h)
  ∧ _set_native_function v w n h = (Raise AttributeError, h)
  ∧ _append_decorator v k n h = (Raise AttributeError, h).
Proof.
  intros Hv.
  assert (unwrap h v = None) as Hu.
  { destruct v as [| |r|]; try done. by destruct (Hv r). }
  pose proof (_getfn_fail _ n _ Hu) as Hg.
  pose proof (_get_native_function_fail _ n _ Hu) as Hn.
  assert (get_decorators v n h = (Raise AttributeError, h)) as Hd.
  { unfold get_decorators. by erewrite bind_raise by exact Hn. }
  split_and!; try done.
  - apply _make_portable_fail. intros r ->. by destruct (Hv r).
  - unfold is_decorated_with. by erewrite bind_raise by exact Hd.
  - unfold _get_decorator. by erewrite bind_raise by exact Hg.
  - unfold _set_decorator. by erewrite bind_raise by exact Hg.
  - unfold _set_native_function. by erewrite bind_raise by exact Hg.
  - unfold _append_decorator. by erewrite bind_raise by exact Hn.
Qed.

Lemma operations_need_an_object_witness :
  _make_portable VNone 1 heap_f = (Raise AttributeError, heap_f)
  ∧ _getfn VNone 1 heap_f = (Raise AttributeError, heap_f)
  ∧ get_real_function VNone 1 heap_f = (Raise AttributeError, heap_f)
  ∧ get_decorators VNone 1 heap_f = (Raise AttributeError, heap_f)
  ∧ is_decorated_with VNone (VRef 0) 1 heap_f = (Raise AttributeError, heap_f)
  ∧ _get_native_function VNone 1 heap_f = (Raise AttributeError, heap_f)
  ∧ _get_decorator VNone 1 heap_f = (Raise AttributeError, heap_f)
  ∧ _set_decorator VNone (VRef 0) 1 heap_f = (Raise AttributeError, heap_f)
  ∧ _set_native_function VNone (VRef 0) 1 heap_f = (Raise AttributeError, heap_f)
  ∧ _append_decorator VNone 0 1 heap_f = (Raise AttributeError, heap_f).
Proof.
  apply (operations_need_an_object VNone 1 heap_f (VRef 0) (VRef 0) 0).
  intros r. discriminate.
Defined.

(** X9: applied to [None], a number or a list, a registered wrapper
    raises [AttributeError], after the native decorator has run and
    built its function; it records nothing: the heap is the one the
    native decorator left. *)
Theorem new_decorator_needs_an_object native_decorator d v n h :
  builds_wrapper native_decorator → takes_no_attributes v →
  ∃ o, fresh_function o
    ∧ new_decorator native_decorator d v n h = (Raise AttributeError, h ++ [o]).
Proof.
  intros Hb Hv. destruct (Hb v n h) as (o&Hcall&Hfresh). exists o. split; [done|].
  unfold new_decorator. erewrite bind_ok by exact Hcall.
  erewrite bind_raise; [done|]. apply _get_native_function_fail.
  destruct v as [| |r|]; try done. by destruct (Hv r).
Qed.

Lemma new_decorator_needs_an_object_witness :
  ∃ o, fresh_function o
    ∧ new_decorator just_decorator 1 VNone 2 heap_rjd
      = (Raise AttributeError, heap_rjd ++ [o]).
Proof.
  apply (new_decorator_needs_an_object just_decorator 1 VNone 2 heap_rjd).
  - apply wrapping_builds_wrapper.
  - intros r. discriminate.
Defined.

(** ** [decorated_methods] *)

Lemma bind_eq_l {S A B} (m1 m2 : ST S A) (k : A → ST S B) n s :
  m1 n s = m2 n s → bind m1 k n s = bind m2 k n s.
Proof. unfold bind. by intros ->. Qed.

Lemma kind_at_lookup h r k : kind_at h r = Some k → ∃ a, h !! r = Some {| o_kind := k; o_ann := a |}.
Proof.
  unfold kind_at. destruct (h !! r) as [[k' a]|]; [|done]. simpl. intros [= ->]. by exists a.
Qed.

Lemma class_loop_plain_class fuel n h c :
  plain_class h c → class_loop (S fuel) (CVal (VRef c)) n h = (Ok (CVal (VRef c)), h).
Proof.
  intros (co&Hk&Hm). apply kind_at_lookup in Hk as [a Ho].
  simpl. unfold bind, getattr_class. rewrite Ho. simpl. by rewrite Hm.
Qed.

Lemma class_loop_class_is fuel n h x c :
  class_is h x c → plain_class h c →
  class_loop (S (S fuel)) (CVal (VRef x)) n h = (Ok (CVal (VRef c)), h).
Proof.
  intros Hx Hc. rewrite <- (class_loop_plain_class fuel n h c Hc).
  change (class_loop (S (S fuel)) (CVal (VRef x)) n h)
    with (bind (getattr_class (CVal (VRef x)))
            (fun c => match c with
                      | CType => ret (CVal (VRef x))
                      | _ => class_loop (S fuel) c
                      end) n h).
  unfold bind at 1. unfold getattr_class.
  destruct Hx as [Hk|(co&Hk&Hm)]; apply kind_at_lookup in Hk as [a Ho]; rewrite Ho; simpl.
  - done.
  - by rewrite Hm.
Qed.

Lemma decorated_methods_class_is h x c d n out :
  class_is h x c → plain_class h c →
  decorated_methods (VRef x) d (S (S n)) (h, out)
  = decorated_methods (VRef c) d (S (S n)) (h, out).
Proof.
  intros Hx Hc. unfold decorated_methods. apply bind_eq_l.
  unfold lift, with_fuel. simpl fst. simpl snd.
  by rewrite (class_loop_class_is n _ h x c), (class_loop_plain_class (S n) _ h c).
Qed.

(** X10: for an instance, [decorated_methods] scans the class of the
    instance: it yields, returns and leaves the heap exactly as for the
    class itself. *)
Theorem decorated_methods_of_an_instance h i c d n :
  kind_at h i = Some (KInstance c) → plain_class h c →
  run (decorated_methods (VRef i) d) (S (S n)) h
  = run (decorated_methods (VRef c) d) (S (S n)) h.
Proof.
  intros Hi Hc. unfold run.
  rewrite (decorated_methods_class_is h i c); [done|by left|done].
Qed.

Lemma decorated_methods_of_an_instance_witness :
  run (decorated_methods (VRef 7) (VRef 2)) 2 heap_test_class
  = run (decorated_methods (VRef 6) (VRef 2)) 2 heap_test_class.
Proof.
  apply (decorated_methods_of_an_instance heap_test_class 7 6 (VRef 2) 0).
  - reflexivity.
  - by eexists.
Defined.

(** X11: for a class with a metaclass, [decorated_methods] scans the
    metaclass, not the class: the loop that looks for the class goes on
    to [cls.__class__] until the class of that is [type]. *)
Theorem decorated_methods_of_a_class_with_metaclass h c co meta d n :
  kind_at h c = Some (KClass co) → cls_meta co = Some meta → plain_class h meta →
  run (decorated_methods (VRef c) d) (S (S n)) h
  = run (decorated_methods (VRef meta) d) (S (S n)) h.
Proof.
  intros Hc Hm Hmeta. unfold run.
  rewrite (decorated_methods_class_is h c meta); [done| |done].
  right. by exists co.
Qed.

Lemma decorated_methods_of_a_class_with_metaclass_witness :
  run (decorated_methods (VRef 6) (VRef 2)) 2 heap_with_metaclass
  = run (decorated_methods (VRef 5) (VRef 2)) 2 heap_with_metaclass.
Proof.
  apply (decorated_methods_of_a_class_with_metaclass heap_with_metaclass 6
           {| cls_name := "WithMeta"; cls_meta := Some 5; cls_bases := [];
              cls_dict := [("somefunc10"%string, VRef 3)] |} 5 (VRef 2) 0).
  - reflexivity.
  - reflexivity.
  - by eexists.
Defined.

(** The method of [WithMeta] is decorated with [rjd], and the scan of
    [WithMeta] yields the method of [Meta]. *)
Example metaclass_methods_are_yielded :
  fst (class_with_metaclass 2 heap_fg_rjd) = Ok (5, 6)
  ∧ fst (is_decorated_with (VRef 3) (VRef 2) 2 heap_with_metaclass) = Ok true
  ∧ fst (run (decorated_methods (VRef 6) (VRef 2)) 2 heap_with_metaclass)
    = ([Method "somefunc20" (VRef 4)], Ok tt).
Proof. split_and!; by vm_compute. Qed.

(** X12: [decorated_methods] takes any value: for [None], a number, a
    list, a function, a [staticmethod] or a [classmethod] object it scans
    a built-in class, yields nothing and returns, and the heap is as
    before. *)
Theorem decorated_methods_of_other_values h v d n :
  of_builtin_class h v →
  run (decorated_methods v d) (S (S n)) h = ([], Ok tt, h).
Proof.
  intros Hv. unfold run, decorated_methods.
  assert (class_loop (S (S n)) (CVal v) (S (S n)) h = (Ok CBuiltin, h)) as Hloop.
  { simpl. unfold bind.
    assert (getattr_class (CVal v) (S (S n)) h = (Ok CBuiltin, h)) as ->.
    { destruct v as [| |r|]; try done. simpl in Hv. unfold getattr_class, kind_at in *.
      destruct (h !! r) as [[k a]|]; [|done]. simpl in *. by destruct k. }
    done. }
  unfold bind, lift, with_fuel. simpl fst. simpl snd. rewrite Hloop. done.
Qed.

Lemma decorated_methods_of_other_values_witness :
  run (decorated_methods VNone (VRef 1)) 2 heap_rjd = ([], Ok tt, heap_rjd).
Proof. by apply (decorated_methods_of_other_values heap_rjd VNone (VRef 1) 0). Defined.

Lemma typ_only_portable h h' v : only_portable h h' → typ h' v = typ h v.
Proof.
  intros [_ Hop]. destruct v as [| |r|]; try done.
  rewrite !typ_kind. by destruct (Hop r) as [-> _].
Qed.

Lemma is_function_only_portable h h' r :
  only_portable h h' → is_function h r → is_function h' r.
Proof. intros [_ Hop]. unfold is_function. by destruct (Hop r) as [-> _]. Qed.

Lemma has_ann_only_portable h h' r :
  only_portable h h' → is_Some (ann_at h r) → is_Some (ann_at h' r).
Proof.
  intros [_ Hop] Ha. destruct (Hop r) as [_ [->|[Hn _]]]; [done|].
  rewrite Hn in Ha. by destruct Ha.
Qed.

Lemma chain_inv_only_portable h h' f ws ds :
  only_portable h h' → chain_inv h f ws ds → chain_inv h' f ws ds.
Proof.
  intros Hop (Hf&Hn&Hds&Hdec&Hws).
  unfold chain_inv, decorators_ok, decorators_of in *.
  rewrite !(only_portable_track h h') by done.
  split_and!; [by eapply is_function_only_portable|done..|].
  intros v Hv. destruct (Hws v Hv) as (u&->&[->|(Hu&Hun&Ha)]).
  - exists f. split; [done|by left].
  - exists u. split; [done|]. right.
    split_and!; [by eapply is_function_only_portable
                |by rewrite (only_portable_track h h')
                |by eapply has_ann_only_portable].
Qed.

Lemma chain_inv_answer h f v ds d n :
  chain_inv h f [v] ds →
  ∃ h', (ds' <- get_decorators v ;; contains d ds') (S (S n)) h
        = (Ok (bool_decide (d ∈ VRef <$> ds)), h')
    ∧ only_portable h h'.
Proof.
  intros Hinv.
  destruct (chain_inv_get_decorators _ _ _ _ v n Hinv) as (h'&Hg);
    [by apply list_elem_of_singleton|].
  exists h'. split.
  - by erewrite bind_ok by exact Hg.
  - pose proof (keeps_get_decorators v (S (S n)) h) as Hk. by rewrite Hg in Hk.
Qed.

Lemma lift_ok {A} (m : M A) n h out a h' :
  m n h = (Ok a, h') → lift m n (h, out) = (Ok a, (h', out)).
Proof. unfold lift. simpl. by intros ->. Qed.

Section methods.
Context (h : heap) (d : list (string * value)) (decorator : value) (n : nat).
Hypothesis Hchains :
  ∀ k, k ∈ d.*1 → typ h (dict_get d k) = TFunction →
       ∃ f ds, chain_inv h f [dict_get d k] ds.

Lemma decorated_methods_loop l :
  l ⊆ d.*1 →
  ∀ h1 out, only_portable h h1 →
    ∃ h2, only_portable h h2 ∧
      for_each l tt (fun methodname _ =>
        let method := dict_get d methodname in
        t <- lift (type_of method) ;;
        if bool_decide (t = TFunction) then
          ds <- lift (get_decorators method) ;;
          b <- lift (contains decorator ds) ;;
          if b then yield (Method methodname method) else ret tt
        else ret tt) (S (S n)) (h1, out)
      = (Ok tt, (h2, out ++ ((fun k => Method k (dict_get d k)) <$>
           filter (fun k => typ h (dict_get d k) = TFunction
                            ∧ answers_true (S (S n)) h decorator (dict_get d k) = true)
                  l))).
Proof.
  induction l as [|k l IH]; intros Hsub h1 out Hop.
  - exists h1. split; [done|]. simpl. by rewrite app_nil_r.
  - assert (k ∈ d.*1) as Hk by (apply Hsub; by left).
    assert (l ⊆ d.*1) as Hl by (intros x Hx; apply Hsub; by right).
    simpl for_each. rewrite filter_cons.
    destruct (decide (typ h (dict_get d k) = TFunction)) as [Ht|Ht].
    + destruct (Hchains k Hk Ht) as (f&ds&Hinv).
      pose proof (chain_inv_only_portable _ _ _ _ _ Hop Hinv) as Hinv1.
      destruct (chain_inv_get_decorators _ _ _ _ (dict_get d k) n Hinv1)
        as (h1'&Hg); [by apply list_elem_of_singleton|].
      assert (only_portable h h1') as Hop'.
      { eapply only_portable_trans; [exact Hop|].
        pose proof (keeps_get_decorators (dict_get d k) (S (S n)) h1) as Hkeep.
        by rewrite Hg in Hkeep. }
      destruct (chain_inv_answer _ _ _ _ decorator n Hinv) as (h0'&Hans0&_).
      assert (answers_true (S (S n)) h decorator (dict_get d k)
              = bool_decide (decorator ∈ VRef <$> ds)) as Hat.
      { unfold answers_true, is_decorated_with. rewrite Hans0. simpl.
        by destruct (bool_decide _). }
      destruct (bool_decide (decorator ∈ VRef <$> ds)) eqn:Hb.
      * destruct (IH Hl h1' (out ++ [Method k (dict_get d k)]) Hop') as (h2&Hop2&Hrun).
        exists h2. split; [done|].
        erewrite bind_ok; [rewrite Hrun|].
        -- rewrite decide_True by done. by rewrite fmap_cons, <- app_assoc.
        -- erewrite bind_ok by (apply lift_ok; reflexivity).
           rewrite (typ_only_portable h h1), Ht by done.
           rewrite bool_decide_eq_true_2 by done.
           erewrite bind_ok by (apply lift_ok; exact Hg).
           erewrite bind_ok by (apply lift_ok; unfold contains, ret; by rewrite Hb).
           reflexivity.
      * destruct (IH Hl h1' out Hop') as (h2&Hop2&Hrun).
        exists h2. split; [done|].
        erewrite bind_ok; [rewrite Hrun|].
        -- rewrite decide_False; [done|]. rewrite Hat. by intros [_ ?].
        -- erewrite bind_ok by (apply lift_ok; reflexivity).
           rewrite (typ_only_portable h h1), Ht by done.
           rewrite bool_decide_eq_true_2 by done.
           erewrite bind_ok by (apply lift_ok; exact Hg).
           erewrite bind_ok by (apply lift_ok; unfold contains, ret; by rewrite Hb).
           reflexivity.
    + destruct (IH Hl h1 out Hop) as (h2&Hop2&Hrun).
      exists h2. split; [done|].
      erewrite bind_ok; [rewrite Hrun|].
      * rewrite decide_False; [done|]. by intros [? _].
      * erewrite bind_ok by (apply lift_ok; reflexivity).
        rewrite (typ_only_portable h h1) by done.
        by rewrite bool_decide_eq_false_2 by done.
Qed.
End methods.

(** X13: for a class whose function members belong to chains the
    registry built, [decorated_methods] returns and yields, in the order
    of the class's [__dict__], exactly the members that are function
    objects and for which [is_decorated_with] answers [True]; the heap
    differs by empty annotation maps only. *)
Theorem decorated_methods_yields_the_decorated_functions h c co decorator n :
  kind_at h c = Some (KClass co) → cls_meta co = None →
  (∀ k, k ∈ (cls_dict co).*1 → typ h (dict_get (cls_dict co) k) = TFunction →
        ∃ f ds, chain_inv h f [dict_get (cls_dict co) k] ds) →
  ∃ h', run (decorated_methods (VRef c) decorator) (S (S n)) h
        = (decorated_functions_of (S (S n)) h decorator (cls_dict co), Ok tt, h')
    ∧ only_portable h h'.
Proof.
  intros Hc Hm Hchains.
  destruct (decorated_methods_loop h (cls_dict co) decorator n Hchains
              (map fst (cls_dict co)) (reflexivity _) h [] (only_portable_refl h))
    as (h2&Hop&Hrun).
  exists h2. split; [|done].
  unfold run, decorated_methods.
  erewrite bind_ok.
  2:{ apply lift_ok. unfold with_fuel. apply class_loop_plain_class. by exists co. }
  erewrite bind_ok.
  2:{ apply lift_ok. unfold class_dict. apply kind_at_lookup in Hc as [a Ho].
      by rewrite Ho. }
  cbv zeta in Hrun. by rewrite Hrun.
Qed.

Lemma decorated_methods_yields_the_decorated_functions_witness :
  ∃ h', run (decorated_methods (VRef 6) (VRef 2)) 2 heap_test_class
        = (decorated_functions_of 2 heap_test_class (VRef 2)
             [("somefunc10"%string, VRef 3); ("somefunc20"%string, VRef 5)], Ok tt, h')
    ∧ only_portable heap_test_class h'.
Proof.
  apply (decorated_methods_yields_the_decorated_functions heap_test_class 6
           {| cls_name := "TestClass"; cls_meta := None; cls_bases := [];
              cls_dict := [("somefunc10"%string, VRef 3); ("somefunc20"%string, VRef 5)] |}
           (VRef 2) 0).
  - reflexivity.
  - reflexivity.
  - intros k Hk Ht. simpl in Hk.
    apply elem_of_cons in Hk as [->|Hk].
    + exists 0, [2]. vm_compute dict_get. split_and!.
      * by eexists _, _, _.
      * reflexivity.
      * right. by eexists.
      * reflexivity.
      * intros v ->%list_elem_of_singleton. exists 3. split; [done|]. right.
        split_and!; [by eexists _, _, _|reflexivity|by eexists].
    + apply list_elem_of_singleton in Hk as ->. by vm_compute in Ht.
Defined.

(** ** Registration and application *)





(** ** Heaps where every object has its annotations *)

Lemma only_portable_settled h h' : settled h → only_portable h h' → h' = h.
Proof.
  intros Hs [Hlen Hop]. apply list_eq. intros r.
  destruct (Hop r) as [Hk Ha]. unfold kind_at, ann_at in *.
  destruct (h !! r) as [[k a]|] eqn:Ho.
  - pose proof (Hs r (lookup_lt_Some _ _ _ Ho)) as [a0 Ha0].
    unfold ann_at in Ha0. rewrite Ho in Ha0. simpl in *.
    destruct (h' !! r) as [[k' a']|]; simpl in *; [|done].
    destruct Ha as [Ha|[Ha _]]; [|congruence]. congruence.
  - apply lookup_ge_None in Ho. apply lookup_ge_None. lia.
Qed.

Lemma heap_after_only_portable q fuel h : only_portable h (heap_after q fuel h).
Proof.
  destruct q; simpl.
  - apply keeps_get_native_function.
  - apply keeps_get_decorators.
  - apply keeps_is_decorated_with.
  - apply keeps_run, keeps_decorated_methods.
  - apply keeps_run, keeps_for_all_decorated_module_functions, keeps_yield.
  - apply keeps_run, keeps_for_all_decorated_module_functions. intros e.
    apply keeps_bind_G; [apply keeps_lift, keeps_get_decorators|]. intros ds.
    apply keeps_bind_G; [apply keeps_lift, keeps_contains|]. intros b.
    destruct b; [apply keeps_yield|apply keeps_ret_G].
Qed.

(** X16: where every object has its [__annotations__] already, as every
    function has in Python 3, the queries are read-only: whatever its
    outcome, a query leaves the heap exactly as it found it. *)
Theorem queries_are_read_only q fuel h :
  settled h → heap_after q fuel h = h.
Proof. intros Hs. apply only_portable_settled; [done|apply heap_after_only_portable]. Qed.

Lemma queries_are_read_only_witness :
  heap_after (IsDecoratedWith (VRef 0) (VRef 1)) 2 (portable 1 (portable 0 heap_rjd))
  = portable 1 (portable 0 heap_rjd).
Proof.
  apply (queries_are_read_only (IsDecoratedWith (VRef 0) (VRef 1)) 2
           (portable 1 (portable 0 heap_rjd))).
  intros r Hr. vm_compute in Hr.
  destruct r as [|[|r]]; [by eexists..|lia].
Defined.

(** ** The entries a chain of applications leaves *)




(** ** Module scans *)

Lemma scan_module_element_excluded body module el names n s :
  scan_module_element body module true true el names n s = (Ok names, s).
Proof.
  destruct s as [h out]. unfold scan_module_element. simpl negb. simpl andb.
  erewrite bind_ok by (apply lift_ok; reflexivity).
  erewrite bind_ok by reflexivity. simpl.
  by erewrite bind_ok by (apply lift_ok; reflexivity).
Qed.

Lemma for_each_excluded body module l names n s :
  for_each l names (scan_module_element body module true true) n s = (Ok names, s).
Proof.
  revert names. induction l as [|el l IH]; intros names; [done|].
  simpl. erewrite bind_ok by apply scan_module_element_excluded. apply IH.
Qed.

(** X18: with both [exclude_methods] and [exclude_functions] a scan of
    a module does nothing: it yields nothing, returns, and touches no
    object, whatever the module binds. *)
Theorem scans_with_both_flags module d fuel h :
  run (all_decorated_module_functions module true true) fuel h = ([], Ok [], h)
  ∧ run (module_functions_decorated_with module d true true) fuel h = ([], Ok [], h).
Proof.
  unfold run, all_decorated_module_functions, module_functions_decorated_with,
    for_all_decorated_module_functions.
  by rewrite !for_each_excluded.
Qed.

Section follows.
Context (n : nat) (h : heap) (sel : entry → bool) (passed : entry → Prop).
Hypothesis Hsettled : settled h.

Lemma follows_ret {A} (a : A) : follows n h sel passed (ret a) (ret a).
Proof.
  intros o1 o2. exists [], [], (Ok a), (Ok a). simpl. rewrite !app_nil_r.
  split_and!; [done..|]. by left.
Qed.

Lemma follows_lift {A} (m : M A) :
  keeps only_portable m → follows n h sel passed (lift m) (lift m).
Proof.
  intros Hk o1 o2. pose proof (only_portable_settled _ _ Hsettled (Hk n h)) as Hh.
  exists [], [], (fst (m n h)), (fst (m n h)). simpl. rewrite !app_nil_r.
  unfold lift. simpl. destruct (m n h) as [r h']. simpl in *. subst h'.
  split_and!; [done..|]. by left.
Qed.

Lemma follows_bind {A B} (m_t m_y : G A) (k_t k_y : A → G B) :
  follows n h sel passed m_t m_y → (∀ a, follows n h sel passed (k_t a) (k_y a)) →
  follows n h sel passed (bind m_t k_t) (bind m_y k_y).
Proof.
  intros Hm Hk o1 o2. destruct (Hm o1 o2) as (Δ&Δp&r1&r2&Hy&Ht&Hpassed&Hcase).
  unfold bind. rewrite Hy, Ht.
  destruct Hcase as [[-> ->]|[Hr1 Hpre]].
  - destruct r2 as [a| |].
    + destruct (Hk a (o1 ++ filter (fun e => sel e = true) Δ) (o2 ++ Δ))
        as (Δ'&Δp'&r1'&r2'&Hy'&Ht'&Hpassed'&Hcase').
      exists (Δ ++ Δ'), (Δ ++ Δp'), r1', r2'.
      rewrite Hy', Ht', filter_app, !app_assoc.
      split_and!; [done|done|by apply Forall_app|].
      destruct Hcase' as [[-> ->]|[Hr1' Hpre']]; [by left|right].
      split; [done|]. by apply prefix_app.
    + exists Δ, Δ, (Raise e), (Raise e). split_and!; [done..|]. by left.
    + exists Δ, Δ, Timeout, Timeout. split_and!; [done..|]. by left.
  - destruct r1 as [a| |]; [by destruct (Hr1 a)|..].
    + destruct r2 as [a| |].
      * destruct (Hk a o1 (o2 ++ Δ)) as (Δ'&_&_&r2'&Hy'&_&_).
        exists (Δ ++ Δ'), Δp, (Raise e), r2'. rewrite Hy', app_assoc.
        split_and!; [done..|]. right. split; [done|]. by apply prefix_app_r.
      * exists Δ, Δp, (Raise e), (Raise e0). split_and!; [done..|]. by right.
      * exists Δ, Δp, (Raise e), Timeout. split_and!; [done..|]. by right.
    + destruct r2 as [a| |].
      * destruct (Hk a o1 (o2 ++ Δ)) as (Δ'&_&_&r2'&Hy'&_&_).
        exists (Δ ++ Δ'), Δp, Timeout, r2'. rewrite Hy', app_assoc.
        split_and!; [done..|]. right. split; [done|]. by apply prefix_app_r.
      * exists Δ, Δp, Timeout, (Raise e). split_and!; [done..|]. by right.
      * exists Δ, Δp, Timeout, Timeout. split_and!; [done..|]. by right.
Qed.

Lemma follows_for_each {A B} (l : list A) (body_t body_y : A → B → G B) :
  (∀ x acc, follows n h sel passed (body_t x acc) (body_y x acc)) →
  ∀ acc, follows n h sel passed (for_each l acc body_t) (for_each l acc body_y).
Proof.
  intros Hbody. induction l as [|x l IH]; intros acc; simpl.
  - apply follows_ret.
  - apply follows_bind; [apply Hbody|apply IH].
Qed.
End follows.

Section filtered_scan.
Context (n : nat) (h : heap) (decorator : value).
Hypothesis Hsettled : settled h.

Local Abbreviation sel := (fun e => answers_true n h decorator (entry_value e)).
Local Abbreviation answered :=
  (fun e => ∃ b, fst (is_decorated_with (entry_value e) decorator n h) = Ok b).
Local Abbreviation filtering :=
  (fun mfn =>
     ds <- lift (get_decorators (entry_value mfn)) ;;
     b <- lift (contains decorator ds) ;;
     if b then yield mfn else ret tt).

Lemma follows_filtering e : follows n h sel answered (filtering e) (yield e).
Proof.
  intros o1 o2.
  pose proof (only_portable_settled _ _ Hsettled
                (keeps_get_decorators (entry_value e) n h)) as Hh.
  assert (∀ r1 Δp, (r1 = Ok tt ∧ Δp = [e]) ∨ (does_not_return r1 ∧ Δp = []) →
            (r1 = Ok tt ∧ Δp = [e]) ∨ (does_not_return r1 ∧ Δp `prefix_of` [e])) as Hcase.
  { intros r1 Δp [?|[? ->]]; [by left|right]. split; [done|]. apply prefix_nil. }
  unfold bind, lift, yield. simpl fst. simpl snd.
  destruct (get_decorators (entry_value e) n h) as [[ds| |] h'] eqn:Hg;
    simpl in Hh; subst h'; simpl.
  - destruct ds as [| | |l]; simpl.
    1-3: exists [e], [], (Raise TypeError), (Ok tt); rewrite app_nil_r;
         (split_and!; [done..|]); apply Hcase; by right.
    assert (fst (is_decorated_with (entry_value e) decorator n h)
            = Ok (bool_decide (decorator ∈ VRef <$> l))) as Hans.
    { unfold is_decorated_with, bind. by rewrite Hg. }
    assert (answers_true n h decorator (entry_value e)
            = bool_decide (decorator ∈ VRef <$> l)) as Hat.
    { unfold answers_true. rewrite Hans. by destruct (bool_decide _). }
    assert (Forall answered [e]) as Hpassed.
    { apply Forall_singleton. by eexists. }
    destruct (bool_decide (decorator ∈ VRef <$> l)) eqn:Hb; simpl.
    + exists [e], [e], (Ok tt), (Ok tt). rewrite filter_cons, decide_True by done.
      split_and!; [done..|]. by left.
    + exists [e], [e], (Ok tt), (Ok tt).
      rewrite filter_cons, decide_False by (by rewrite Hat).
      simpl. rewrite app_nil_r. split_and!; [done..|]. by left.
  - exists [e], [], (Raise e0), (Ok tt). rewrite app_nil_r.
    split_and!; [done..|]. apply Hcase. by right.
  - exists [e], [], Timeout, (Ok tt). rewrite app_nil_r.
    split_and!; [done..|]. apply Hcase. by right.
Qed.

Lemma follows_scan_class_element fn cls_el names :
  follows n h sel answered (scan_class_element filtering fn cls_el names)
    (scan_class_element yield fn cls_el names).
Proof.
  unfold scan_class_element.
  apply follows_bind; [by apply follows_lift, keeps_class_dict|]. intros d.
  apply follows_bind; [by apply follows_lift, keeps_type_of|]. intros t.
  destruct (is_function_type t); [|apply follows_ret].
  apply follows_bind; [by apply follows_lift, keeps_getfn|]. intros method.
  apply follows_bind; [by apply follows_lift, keeps_get_decorators|]. intros ds.
  apply follows_bind; [by apply follows_lift, keeps_len|]. intros k.
  case_bool_decide; [|apply follows_ret].
  apply follows_bind; [by apply follows_lift, keeps_getitem|]. intros native_fn.
  apply follows_bind; [by apply follows_lift, keeps_getattr_name|]. intros fname.
  case_bool_decide; [|apply follows_ret].
  apply follows_bind; [by apply follows_lift, keeps_getattr_name|]. intros cname.
  apply follows_bind; [apply follows_filtering|]. intros _. apply follows_ret.
Qed.

Lemma follows_scan_module_element module em ef el names :
  follows n h sel answered (scan_module_element filtering module em ef el names)
    (scan_module_element yield module em ef el names).
Proof.
  unfold scan_module_element.
  apply follows_bind; [by apply follows_lift, keeps_type_of|]. intros t.
  apply follows_bind.
  { destruct (negb ef && is_function_type t); [|apply follows_ret].
    apply follows_bind; [by apply follows_lift, keeps_getfn|]. intros fn.
    apply follows_bind; [by apply follows_lift, keeps_get_decorators|]. intros ds.
    apply follows_bind; [by apply follows_lift, keeps_len|]. intros k.
    case_bool_decide; [|apply follows_ret].
    apply follows_bind; [by apply follows_lift, keeps_getitem|]. intros native_fn.
    apply follows_bind; [by apply follows_lift, keeps_getattr_name|]. intros fname.
    case_bool_decide; [|apply follows_ret].
    apply follows_bind; [apply follows_filtering|]. intros _. apply follows_ret. }
  intros [fn names']. simpl.
  apply follows_bind; [by apply follows_lift, keeps_type_of|]. intros t'.
  destruct (negb em && bool_decide (t' = TType)); [|apply follows_ret].
  apply follows_bind; [by apply follows_lift, keeps_dir|]. intros cls_names.
  apply follows_for_each. intros x acc. apply follows_scan_class_element.
Qed.

Lemma follows_module_functions_decorated_with module em ef :
  follows n h sel answered (module_functions_decorated_with module decorator em ef)
    (all_decorated_module_functions module em ef).
Proof.
  apply follows_for_each. intros x acc. apply follows_scan_module_element.
Qed.
End filtered_scan.

(** X19: where every object has its [__annotations__],
    [module_functions_decorated_with] yields, in the same order, the
    entries of [all_decorated_module_functions] for whose value
    [is_decorated_with] answers [True]: of all of them, and then it ends
    as the scan of all decorated functions ends, or of the first few of
    them, and then it ends with an exception (or out of fuel).  Neither
    scan changes the heap. *)
Theorem module_functions_decorated_with_selects module decorator em ef fuel h :
  settled h →
  let all := run (all_decorated_module_functions module em ef) fuel h in
  let some := run (module_functions_decorated_with module decorator em ef) fuel h in
  snd all = h ∧ snd some = h
  ∧ ∃ first,
      first `prefix_of` fst (fst all)
      ∧ fst (fst some)
        = filter (fun e => answers_true fuel h decorator (entry_value e) = true) first
      ∧ ((snd (fst some) = snd (fst all) ∧ first = fst (fst all))
         ∨ does_not_return (snd (fst some))).
Proof.
  intros Hs all some. unfold all, some, run.
  destruct (follows_module_functions_decorated_with fuel h decorator Hs module em ef [] [])
    as (Δ&Δp&r1&r2&Hy&Ht&_&Hcase).
  rewrite Hy, Ht. simpl. split_and!; [done..|].
  exists Δp. split_and!; [|done|].
  - destruct Hcase as [[_ ->]|[_ Hpre]]; done.
  - destruct Hcase as [[-> ->]|[Hr _]]; [by left|by right].
Qed.

Lemma module_functions_decorated_with_selects_witness :
  let all := run (all_decorated_module_functions
                    [("somefunc2"%string, VRef 2)] false false) 2 heap_decorated in
  let some := run (module_functions_decorated_with
                     [("somefunc2"%string, VRef 2)] (VRef 1) false false) 2 heap_decorated in
  snd all = heap_decorated ∧ snd some = heap_decorated
  ∧ ∃ first,
      first `prefix_of` fst (fst all)
      ∧ fst (fst some)
        = filter (fun e => answers_true 2 heap_decorated (VRef 1) (entry_value e) = true)
            first
      ∧ ((snd (fst some) = snd (fst all) ∧ first = fst (fst all))
         ∨ does_not_return (snd (fst some))).
Proof.
  apply (module_functions_decorated_with_selects
           [("somefunc2"%string, VRef 2)] (VRef 1) false false 2 heap_decorated).
  intros r Hr. vm_compute in Hr.
  destruct r as [|[|[|r]]]; [by eexists..|lia].
Defined.

(** The wrapper of [somefunc2] is bound to that name: both scans yield
    it. *)
Example scans_of_a_decorated_function :
  fst (run (all_decorated_module_functions
              [("somefunc2"%string, VRef 2)] false false) 2 heap_decorated)
  = ([ModuleFunction "somefunc2" (VRef 2)], Ok ["somefunc2"%string])
  ∧ fst (run (module_functions_decorated_with
                [("somefunc2"%string, VRef 2)] (VRef 1) false false) 2 heap_decorated)
    = ([ModuleFunction "somefunc2" (VRef 2)], Ok ["somefunc2"%string])
  ∧ fst (run (module_functions_decorated_with
                [("somefunc2"%string, VRef 2)] (VRef 0) false false) 2 heap_decorated)
    = ([], Ok ["somefunc2"%string]).
Proof. split_and!; by vm_compute. Qed.

(** ** What a module scan that returns has covered *)

Lemma unwrap_only_portable h h' v : only_portable h h' → unwrap h' v = unwrap h v.
Proof. intros [Hl Hop]. apply unwrap_ext; [done|]. intros r. by destruct (Hop r). Qed.

Lemma walk_zero h v : walk 0 h v = Timeout.
Proof. reflexivity. Qed.

Lemma get_decorators_in_chain h f w ds n x :
  chain_inv h f [VRef w] ds →
  fst (get_decorators (VRef w) n h) = Ok x → x = VList ds.
Proof.
  intros Hinv. pose proof Hinv as (Hf&Hn&Hds&Hdec&Hws).
  destruct (Hws (VRef w)) as (t&[= <-]&Hchain); [by apply list_elem_of_singleton|].
  destruct n as [|[|n]].
  - assert (is_function h w) as Hw by (destruct Hchain as [->|(?&_)]; done).
    unfold get_decorators.
    erewrite bind_timeout; [done|].
    by rewrite (_get_native_function_ok _ _ _ w) by (by apply unwrap_function).
  - destruct Hchain as [->|(Hw&Hwn&Ha)].
    + rewrite get_decorators_original by done. simpl. intros [= <-].
      rewrite <- Hdec. by apply decorators_ok_default.
    + unfold get_decorators. erewrite bind_timeout; [done|].
      rewrite (_get_native_function_ok _ _ _ w) by (by apply unwrap_function).
      by rewrite (walk_track_step _ _ _ (VRef f)) by (by rewrite track_portable).
  - destruct (chain_inv_get_decorators _ _ _ _ (VRef w) n Hinv) as (h'&Hg);
      [by apply list_elem_of_singleton|].
    rewrite Hg. simpl. by intros [= <-].
Qed.

Lemma getitem_result r k n h v :
  fst (getitem (VRef r) k n h) = Ok v → track h r k = Some v.
Proof.
  unfold getitem, bind, getattr_annotations, track, ann_at.
  destruct (h !! r) as [o|]; [|done]. simpl.
  destruct (o_ann o) as [a|]; [|done]. simpl.
  destruct (a !! k); [|done]. simpl. by intros [= <-].
Qed.

Lemma elem_of_sorted_names x names : x ∈ sorted_names names ↔ x ∈ names.
Proof.
  unfold sorted_names. rewrite merge_sort_Permutation. apply elem_of_remove_dups.
Qed.

Lemma dir_result n h c co names :
  kind_at h c = Some (KClass co) →
  fst (dir (VRef c) n h) = Ok names → (cls_dict co).*1 ⊆ names.
Proof.
  intros Hk. unfold dir, with_fuel.
  destruct (attribute_names n h c) as [l|] eqn:Hl; [|done]. simpl. intros [= <-].
  destruct n as [|n]; [done|]. simpl in Hl.
  apply kind_at_lookup in Hk as [a Ho]. rewrite Ho in Hl.
  destruct (mapM (attribute_names n h) (cls_bases co)) as [inherited|]; [|done].
  simpl in Hl. injection Hl as <-.
  intros x Hx. apply elem_of_sorted_names, elem_of_app. by left.
Qed.

Lemma triple_consequence {A} I P (g : G A) (Q Q' : A → list entry → Prop) :
  triple I P g Q → (∀ a out, Q a out → Q' a out) → triple I P g Q'.
Proof.
  intros Hg HQ n h out HI HP. destruct (Hg n h out HI HP) as [HI' HQ'].
  split; [done|]. intros a Ha. by apply HQ, HQ'.
Qed.

Section covers.
Context (h0 : heap).

Local Abbreviation cinv := (gen_inv h0 (fun _ => True)).
Local Abbreviation any := (fun _ : list entry => True).

Lemma triple_yield_any e : triple cinv any (yield e) (fun _ _ => True).
Proof. intros n h out (Hop&_) _. simpl. done. Qed.

Lemma triple_for_each_acc {A} (R : A → list string → Prop) (l : list A)
    (body : A → list string → G (list string)) :
  (∀ x acc acc', R x acc → acc ⊆ acc' → R x acc') →
  (∀ x acc, triple cinv any (body x acc) (fun acc' _ => acc ⊆ acc' ∧ R x acc')) →
  ∀ acc, triple cinv any (for_each l acc body)
           (fun acc' _ => acc ⊆ acc' ∧ ∀ x, x ∈ l → R x acc').
Proof.
  intros Hmono Hbody. induction l as [|x l IH]; intros acc; simpl.
  - apply triple_ret. intros out _. split; [done|]. by intros x ?%not_elem_of_nil.
  - eapply triple_bind.
    + eapply triple_consequence; [apply Hbody|].
      intros acc1 out H. exact (conj Logic.I H).
    + intros acc1. apply triple_pure. intros [Hsub HR].
      eapply triple_consequence; [apply IH|]. simpl.
      intros acc' out [Hsub' Hall]. split; [by etrans|].
      intros y [->|Hy]%elem_of_cons; [by eapply Hmono|by apply Hall].
Qed.

Lemma type_of_result n h v t :
  only_portable h0 h → fst (type_of v n h) = Ok t → t = typ h0 v.
Proof. intros Hop [= <-]. by apply typ_only_portable. Qed.

Lemma _getfn_result n h v method :
  only_portable h0 h → fst (_getfn v n h) = Ok method →
  ∃ w, unwrap h0 v = Some w ∧ method = VRef w.
Proof.
  intros Hop. rewrite <- (unwrap_only_portable h0 h) by done.
  destruct (unwrap h v) as [w|] eqn:Hu.
  - rewrite (_getfn_ok _ _ _ _ Hu). simpl. intros [= <-]. by exists w.
  - by rewrite (_getfn_fail _ _ _ Hu).
Qed.

Lemma get_decorators_result n h w x :
  only_portable h0 h → fst (get_decorators (VRef w) n h) = Ok x →
  ∀ f ds, chain_inv h0 f [VRef w] ds → x = VList ds.
Proof.
  intros Hop Hg f ds Hinv. eapply get_decorators_in_chain; [|exact Hg].
  by eapply chain_inv_only_portable.
Qed.

Lemma len_result n h x k :
  fst (len x n h) = Ok k → ∀ l, x = VList l → k = List.length l.
Proof. intros Hl l ->. simpl in Hl. by injection Hl as <-. Qed.

Lemma native_function_result n h w native :
  only_portable h0 h → fst (getitem (VRef w) NATIVE_FUNCTION n h) = Ok native →
  ∀ f ds, chain_inv h0 f [VRef w] ds → native = VRef f ∧ w ≠ f.
Proof.
  intros Hop Hg%getitem_result f ds (Hf&Hn&_&_&Hws).
  rewrite (only_portable_track h0 h) in Hg by done.
  destruct (Hws (VRef w)) as (t&[= <-]&[->|(_&Hwn&_)]);
    [by apply list_elem_of_singleton|congruence|].
  split; [congruence|]. intros ->. congruence.
Qed.

(** What the scan does with a value it takes for a function, when it
    goes on: if [decorated_as] holds of the value, the name is among the
    names it has filed; and the value is no [decorated_original]. *)
Lemma triple_scan_class_element_covers c cls_el names :
  triple cinv any (scan_class_element yield (VRef c) cls_el names)
    (fun names' _ =>
       names ⊆ names'
       ∧ ∀ co, kind_at h0 c = Some (KClass co) →
           (∀ fname, decorated_as h0 (dict_get (cls_dict co) cls_el) fname →
                     fname ∈ names')
           ∧ ¬ decorated_original h0 (dict_get (cls_dict co) cls_el)).
Proof.
  unfold scan_class_element.
  eapply triple_bind;
    [apply (triple_lift _ _ _ (keeps_class_dict _)
              (fun n h => class_dict_result h0 n h (VRef c)))|].
  intros d. apply triple_pure. intros (r&co&[= <-]&Hc&->).
  eapply triple_bind;
    [apply (triple_lift _ _ _ (keeps_type_of _)
              (fun n h => type_of_result n h (dict_get (cls_dict co) cls_el)))|].
  intros t. apply triple_pure. intros ->.
  destruct (is_function_type (typ h0 (dict_get (cls_dict co) cls_el))) eqn:Htyp.
  2:{ apply triple_ret. intros _ _. split; [done|].
      intros co' Hc'. assert (co' = co) as -> by congruence.
      split; [intros fname (Hty&_)|intros (Hty&_)]; congruence. }
  eapply triple_bind;
    [apply (triple_lift _ _ _ (keeps_getfn _)
              (fun n h => _getfn_result n h (dict_get (cls_dict co) cls_el)))|].
  intros method. apply triple_pure. intros (w&Hu&->).
  eapply triple_bind;
    [apply (triple_lift _ _ _ (keeps_get_decorators _)
              (fun n h => get_decorators_result n h w))|].
  intros ds. apply triple_pure. intros Hds.
  eapply triple_bind;
    [apply (triple_lift _ _ _ (keeps_len _) (fun n h k _ => len_result n h ds k))|].
  intros k. apply triple_pure. intros Hk.
  assert (∀ f ds0, chain_inv h0 f [VRef w] ds0 → ds0 ≠ [] → 0 < k) as Hlen.
  { intros f ds0 Hinv Hne. specialize (Hk _ (Hds _ _ Hinv)).
    destruct ds0; [done|]. simpl in Hk. lia. }
  case_bool_decide as Hpos.
  2:{ apply triple_ret. intros _ _. split; [done|].
      intros co' Hc'. assert (co' = co) as -> by congruence. split.
      - intros fname (_&w'&f&ds0&Hu'&Hinv&Hne&_).
        assert (w' = w) as -> by congruence. destruct Hpos. by eapply Hlen.
      - intros (_&f&ds0&Hu'&Hinv&Hne).
        assert (f = w) as -> by congruence. destruct Hpos. by eapply Hlen. }
  eapply triple_bind;
    [apply (triple_lift _ _ _ (keeps_getitem _ _)
              (fun n h => native_function_result n h w))|].
  intros native_fn. apply triple_pure. intros Hnative.
  eapply triple_bind;
    [apply (triple_lift _ _ _ (keeps_getattr_name _)
              (fun n h => getattr_name_result h0 n h native_fn))|].
  intros fname. apply triple_pure. intros (r'&Hr'&Hfname).
  assert (∀ names', names ⊆ names' → fname ∈ names' →
            names ⊆ names'
            ∧ ∀ co', kind_at h0 c = Some (KClass co') →
                (∀ fname', decorated_as h0 (dict_get (cls_dict co') cls_el) fname' →
                           fname' ∈ names')
                ∧ ¬ decorated_original h0 (dict_get (cls_dict co') cls_el)) as Hpost.
  { intros names' Hsub Hin. split; [done|].
    intros co' Hc'. assert (co' = co) as -> by congruence. split.
    - intros fname' (_&w'&f&ds0&Hu'&Hinv&_&Hname).
      assert (w' = w) as -> by congruence.
      destruct (Hnative _ _ Hinv) as [Hnat _].
      rewrite Hnat in Hr'. injection Hr' as <-. congruence.
    - intros (_&f&ds0&Hu'&Hinv&_).
      assert (f = w) as -> by congruence.
      by destruct (Hnative _ _ Hinv) as [_ Hne]. }
  case_bool_decide as Hnew.
  - eapply triple_bind; [apply triple_lift_any, keeps_getattr_name|].
    intros cname.
    eapply triple_bind; [apply triple_yield_any|]. intros [].
    apply triple_ret. intros _ _. apply Hpost.
    + intros x Hx. apply elem_of_app. by left.
    + apply elem_of_app. right. by apply list_elem_of_singleton.
  - apply triple_ret. intros _ _. by apply Hpost.
Qed.

Lemma typ_plain_class c co :
  kind_at h0 c = Some (KClass co) → cls_meta co = None → typ h0 (VRef c) = TType.
Proof. intros Hk Hm. rewrite typ_kind, Hk. by rewrite Hm. Qed.

Lemma typ_type_inv v : typ h0 v = TType → ∃ c, v = VRef c.
Proof. destruct v; try done. by eexists. Qed.

Lemma dir_result_here n h v names :
  only_portable h0 h → fst (dir v n h) = Ok names →
  ∀ c co, v = VRef c → kind_at h0 c = Some (KClass co) → (cls_dict co).*1 ⊆ names.
Proof.
  intros [_ Hop] Hd c co -> Hk. eapply dir_result; [|exact Hd].
  destruct (Hop c) as [-> _]. done.
Qed.

Context (module : namespace) (em ef : bool).

Local Abbreviation covered :=
  (fun (el : string) (names' : list string) =>
     (ef = false →
        (∀ fname, decorated_as h0 (dict_get module el) fname → fname ∈ names')
        ∧ ¬ decorated_original h0 (dict_get module el))
     ∧ (em = false → ∀ c co m,
          dict_get module el = VRef c →
          kind_at h0 c = Some (KClass co) → cls_meta co = None →
          m ∈ (cls_dict co).*1 →
          (∀ fname, decorated_as h0 (dict_get (cls_dict co) m) fname →
                    fname ∈ names')
          ∧ ¬ decorated_original h0 (dict_get (cls_dict co) m))).

Lemma covered_mono el acc acc' : covered el acc → acc ⊆ acc' → covered el acc'.
Proof.
  intros [HR1 HR2] Hacc. split.
  - intros Hef. destruct (HR1 Hef) as [Hcov Hno]. split; [|done].
    intros fname Hdec. by apply Hacc, Hcov.
  - intros Hem c co m Hel Hc Hmeta Hm.
    destruct (HR2 Hem c co m Hel Hc Hmeta Hm) as [Hcov Hno]. split; [|done].
    intros fname Hdec. by apply Hacc, Hcov.
Qed.

Lemma triple_scan_module_element_covers el names :
  triple cinv any (scan_module_element yield module em ef el names)
    (fun names' _ => names ⊆ names' ∧ covered el names').
Proof.
  unfold scan_module_element.
  eapply triple_bind;
    [apply (triple_lift _ _ _ (keeps_type_of _)
              (fun n h => type_of_result n h (dict_get module el)))|].
  intros t. apply triple_pure. intros ->.
  eapply (triple_bind _ _ _
    (fun st out => True ∧
       (names ⊆ snd st
        ∧ (ef = false →
             (∀ fname, decorated_as h0 (dict_get module el) fname → fname ∈ snd st)
             ∧ ¬ decorated_original h0 (dict_get module el))
        ∧ (is_function_type (typ h0 (dict_get module el)) = false →
           fst st = dict_get module el)))).
  { destruct (negb ef && is_function_type (typ h0 (dict_get module el))) eqn:Hcond.
    2:{ apply triple_ret. intros _ _. split; [done|]. split_and!; [done| |done].
        intros ->. simpl in Hcond.
        split; [intros fname (Hty&_)|intros (Hty&_)]; congruence. }
    apply andb_true_iff in Hcond as [Hef%negb_true_iff Htyp].
    eapply triple_bind;
      [apply (triple_lift _ _ _ (keeps_getfn _)
                (fun n h => _getfn_result n h (dict_get module el)))|].
    intros method. apply triple_pure. intros (w&Hu&->).
    eapply triple_bind;
      [apply (triple_lift _ _ _ (keeps_get_decorators _)
                (fun n h => get_decorators_result n h w))|].
    intros ds. apply triple_pure. intros Hds.
    eapply triple_bind;
      [apply (triple_lift _ _ _ (keeps_len _) (fun n h k _ => len_result n h ds k))|].
    intros k. apply triple_pure. intros Hk.
    assert (∀ f ds0, chain_inv h0 f [VRef w] ds0 → ds0 ≠ [] → 0 < k) as Hlen.
    { intros f ds0 Hinv Hne. specialize (Hk _ (Hds _ _ Hinv)).
      destruct ds0; [done|]. simpl in Hk. lia. }
    case_bool_decide as Hpos.
    2:{ apply triple_ret. intros _ _. split; [done|]. split_and!; [done| |congruence].
        intros _. split.
        - intros fname (_&w'&f&ds0&Hu'&Hinv&Hne&_).
          assert (w' = w) as -> by congruence. destruct Hpos. by eapply Hlen.
        - intros (_&f&ds0&Hu'&Hinv&Hne).
          assert (f = w) as -> by congruence. destruct Hpos. by eapply Hlen. }
    eapply triple_bind;
      [apply (triple_lift _ _ _ (keeps_getitem _ _)
                (fun n h => native_function_result n h w))|].
    intros native_fn. apply triple_pure. intros Hnative.
    eapply triple_bind;
      [apply (triple_lift _ _ _ (keeps_getattr_name _)
                (fun n h => getattr_name_result h0 n h native_fn))|].
    intros fname. apply triple_pure. intros (r'&Hr'&Hfname).
    assert (∀ names', names ⊆ names' → fname ∈ names' →
              True ∧
              (names ⊆ names'
               ∧ (ef = false →
                    (∀ fname', decorated_as h0 (dict_get module el) fname' →
                               fname' ∈ names')
                    ∧ ¬ decorated_original h0 (dict_get module el))
               ∧ (is_function_type (typ h0 (dict_get module el)) = false →
                  VRef w = dict_get module el))) as Hpost.
    { intros names' Hsub Hin. split; [done|]. split_and!; [done| |congruence].
      intros _. split.
      - intros fname' (_&w'&f&ds0&Hu'&Hinv&_&Hname).
        assert (w' = w) as -> by congruence.
        destruct (Hnative _ _ Hinv) as [Hnat _].
        rewrite Hnat in Hr'. injection Hr' as <-. congruence.
      - intros (_&f&ds0&Hu'&Hinv&_).
        assert (f = w) as -> by congruence.
        by destruct (Hnative _ _ Hinv) as [_ Hne]. }
    case_bool_decide as Hnew.
    - eapply triple_bind; [apply triple_yield_any|]. intros [].
      apply triple_ret. intros _ _. simpl. apply Hpost.
      + intros x Hx. apply elem_of_app. by left.
      + apply elem_of_app. right. by apply list_elem_of_singleton.
    - apply triple_ret. intros _ _. by apply Hpost. }
  intros [fn names1]. simpl. apply triple_pure. intros (Hsub&Hfun&Hfn).
  eapply triple_bind;
    [apply (triple_lift _ _ _ (keeps_type_of _) (fun n h => type_of_result n h fn))|].
  intros t'. apply triple_pure. intros ->.
  destruct (negb em && bool_decide (typ h0 fn = TType)) eqn:Hcond.
  2:{ apply triple_ret. intros _ _. split_and!; [done|done|].
      intros -> c co m Hel Hc Hmeta Hm. exfalso.
      pose proof (typ_plain_class c co Hc Hmeta) as Hty.
      rewrite Hfn in Hcond by (by rewrite Hel, Hty). simpl in Hcond.
      rewrite Hel, Hty in Hcond. by rewrite bool_decide_eq_true_2 in Hcond. }
  apply andb_true_iff in Hcond as [Hem%negb_true_iff Hty%bool_decide_eq_true].
  destruct (typ_type_inv _ Hty) as [c ->].
  eapply triple_bind;
    [apply (triple_lift _ _ _ (keeps_dir _) (fun n h => dir_result_here n h (VRef c)))|].
  intros cls_names. apply triple_pure. intros Hdir.
  eapply triple_consequence.
  - apply (triple_for_each_acc
             (fun m acc => ∀ co, kind_at h0 c = Some (KClass co) →
                (∀ fname, decorated_as h0 (dict_get (cls_dict co) m) fname →
                          fname ∈ acc)
                ∧ ¬ decorated_original h0 (dict_get (cls_dict co) m))).
    + intros m acc acc' HR Hacc co Hc. destruct (HR co Hc) as [Hcov Hno].
      split; [|done]. intros fname Hdec. by apply Hacc, Hcov.
    + intros m acc. apply triple_scan_class_element_covers.
  - simpl. intros names' _ [Hsub' Hall]. split_and!.
    + by etrans.
    + intros Hef. destruct (Hfun Hef) as [Hcov Hno]. split; [|done].
      intros fname Hdec. by apply Hsub', Hcov.
    + intros _ c' co m Hel Hc Hmeta Hm.
      pose proof (typ_plain_class c' co Hc Hmeta) as Hty'.
      rewrite Hel in Hfn. rewrite Hty' in Hfn. specialize (Hfn eq_refl).
      injection Hfn as ->.
      exact (Hall m (Hdir c' co eq_refl Hc m Hm) co Hc).
Qed.

Lemma triple_all_decorated_module_functions_covers :
  triple cinv any (all_decorated_module_functions module em ef)
    (fun names _ => ∀ el, el ∈ module.*1 → covered el names).
Proof.
  eapply triple_consequence.
  - apply (triple_for_each_acc covered).
    + apply covered_mono.
    + intros el acc. apply triple_scan_module_element_covers.
  - simpl. intros names _ [_ Hall] el Hel.
    apply (Hall el). by apply elem_of_sorted_names.
Qed.
End covers.

Lemma run_returns_covers module em ef n h names :
  snd (fst (run (all_decorated_module_functions module em ef) n h)) = Ok names →
  names = entry_fname <$> fst (fst (run (all_decorated_module_functions module em ef) n h))
  ∧ ∀ el, el ∈ module.*1 →
      (ef = false →
         (∀ fname, decorated_as h (dict_get module el) fname → fname ∈ names)
         ∧ ¬ decorated_original h (dict_get module el))
      ∧ (em = false → ∀ c co m,
           dict_get module el = VRef c →
           kind_at h c = Some (KClass co) → cls_meta co = None →
           m ∈ (cls_dict co).*1 →
           (∀ fname, decorated_as h (dict_get (cls_dict co) m) fname → fname ∈ names)
           ∧ ¬ decorated_original h (dict_get (cls_dict co) m)).
Proof.
  rewrite run_out, run_res. intros Hres.
  destruct (triple_all_decorated_module_functions h module em ef n h [])
    as [_ Hnames].
  { split; [apply only_portable_refl|]. split; [apply Forall_nil_2|apply NoDup_nil_2]. }
  { done. }
  destruct (triple_all_decorated_module_functions_covers h module em ef n h [])
    as [_ Hcov].
  { split; [apply only_portable_refl|done]. }
  { done. }
  split; [by apply Hnames|]. by apply Hcov.
Qed.

(** X20: a scan of a module that returns has covered every decorated
    function: for every name the module binds to a function (or to a
    [staticmethod] or [classmethod] of one) that belongs to a chain the
    registry built and whose true original has decorators, the name of
    that original is among the names of the entries yielded; and the same
    for every such member of every class, with the class [type], that the
    module binds; unless the category is excluded. *)
Theorem all_decorated_module_functions_covers module em ef n h out names h' :
  run (all_decorated_module_functions module em ef) n h = (out, Ok names, h') →
  names = entry_fname <$> out
  ∧ (ef = false → ∀ el fname, el ∈ module.*1 →
       decorated_as h (dict_get module el) fname → fname ∈ entry_fname <$> out)
  ∧ (em = false → ∀ el c co m fname, el ∈ module.*1 →
       dict_get module el = VRef c →
       kind_at h c = Some (KClass co) → cls_meta co = None →
       m ∈ (cls_dict co).*1 →
       decorated_as h (dict_get (cls_dict co) m) fname →
       fname ∈ entry_fname <$> out).
Proof.
  intros Hrun.
  destruct (run_returns_covers module em ef n h names) as [Hnames Hcov];
    [by rewrite Hrun|].
  rewrite Hrun in Hnames. simpl in Hnames. split; [done|]. rewrite <- Hnames. split.
  - intros Hef el fname Hel. destruct (Hcov el Hel) as [Hfun _].
    destruct (Hfun Hef) as [Hc _]. apply Hc.
  - intros Hem el c co m fname Hel Hd Hc Hmeta Hm.
    destruct (Hcov el Hel) as [_ Hmeth].
    destruct (Hmeth Hem c co m Hd Hc Hmeta Hm) as [Hc' _]. apply Hc'.
Qed.

Lemma all_decorated_module_functions_covers_witness :
  [ "somefunc2"%string ] = entry_fname <$> [ModuleFunction "somefunc2" (VRef 2)]
  ∧ (false = false → ∀ el fname, el ∈ [("somefunc2"%string, VRef 2)].*1 →
       decorated_as heap_decorated (dict_get [("somefunc2"%string, VRef 2)] el) fname →
       fname ∈ entry_fname <$> [ModuleFunction "somefunc2" (VRef 2)])
  ∧ (false = false → ∀ el c co m fname, el ∈ [("somefunc2"%string, VRef 2)].*1 →
       dict_get [("somefunc2"%string, VRef 2)] el = VRef c →
       kind_at heap_decorated c = Some (KClass co) → cls_meta co = None →
       m ∈ (cls_dict co).*1 →
       decorated_as heap_decorated (dict_get (cls_dict co) m) fname →
       fname ∈ entry_fname <$> [ModuleFunction "somefunc2" (VRef 2)]).
Proof.
  apply (all_decorated_module_functions_covers [("somefunc2"%string, VRef 2)]
           false false 2 heap_decorated [ModuleFunction "somefunc2" (VRef 2)]
           ["somefunc2"%string] heap_decorated).
  by vm_compute.
Defined.

(** X21: a module that binds a true original that has decorators, or a
    class, with the class [type], with such a member, cannot be scanned:
    unless the category is excluded, [all_decorated_module_functions]
    does not return.  It takes the value for a decorated function and
    asks for its [native_function] entry, which an original does not
    have. *)
Theorem decorated_originals_stop_the_scan module em ef n h :
  (ef = false ∧ ∃ el, el ∈ module.*1 ∧ decorated_original h (dict_get module el))
  ∨ (em = false ∧ ∃ el c co m, el ∈ module.*1 ∧ dict_get module el = VRef c
       ∧ kind_at h c = Some (KClass co) ∧ cls_meta co = None
       ∧ m ∈ (cls_dict co).*1 ∧ decorated_original h (dict_get (cls_dict co) m)) →
  does_not_return (snd (fst (run (all_decorated_module_functions module em ef) n h))).
Proof.
  intros Hbound names Hres.
  destruct (run_returns_covers module em ef n h names Hres) as [_ Hcov].
  destruct Hbound as [(Hef&el&Hel&Horig)|(Hem&el&c&co&m&Hel&Hd&Hc&Hmeta&Hm&Horig)].
  - destruct (Hcov el Hel) as [Hfun _]. by destruct (Hfun Hef) as [_ Hno].
  - destruct (Hcov el Hel) as [_ Hmeth].
    by destruct (Hmeth Hem c co m Hd Hc Hmeta Hm) as [_ Hno].
Qed.

Lemma decorated_originals_stop_the_scan_witness :
  does_not_return
    (snd (fst (run (all_decorated_module_functions
                      [("somefunc2"%string, VRef 0); ("g"%string, VRef 2)] false false)
                 2 heap_decorated))).
Proof.
  apply (decorated_originals_stop_the_scan
           [("somefunc2"%string, VRef 0); ("g"%string, VRef 2)] false false 2
           heap_decorated).
  left. split; [done|]. exists "somefunc2"%string. split.
  - simpl. apply elem_of_cons. by left.
  - split; [reflexivity|]. exists 0, [1]. split_and!; [reflexivity| |done].
    split_and!; [by eexists _, _, _|reflexivity|right; by eexists|reflexivity|].
    intros v ->%list_elem_of_singleton. exists 0. split; [done|by left].
Defined.

(** X22: where every object has its [__annotations__]: when the scan of
    all decorated functions yields an entry whose value takes no
    attributes, as [None], the value of a name the module does not bind,
    [module_functions_decorated_with] does not return: it asks for the
    decorators of that value. *)
Theorem unbound_names_stop_the_filtered_scan module decorator em ef fuel h e :
  settled h →
  e ∈ fst (fst (run (all_decorated_module_functions module em ef) fuel h)) →
  takes_no_attributes (entry_value e) →
  does_not_return
    (snd (fst (run (module_functions_decorated_with module decorator em ef) fuel h))).
Proof.
  intros Hs He Hv names. unfold run in *.
  destruct (follows_module_functions_decorated_with fuel h decorator Hs module em ef [] [])
    as (Δ&Δp&r1&r2&Hy&Ht&Hpassed&Hcase).
  rewrite Hy in He. rewrite Ht. simpl in *.
  destruct Hcase as [[-> ->]|[Hr _]]; [|apply Hr].
  rewrite Forall_forall in Hpassed. destruct (Hpassed e He) as [b Hb].
  assert (unwrap h (entry_value e) = None) as Hu.
  { destruct (entry_value e) as [| |r|]; try done. by destruct (Hv r). }
  unfold is_decorated_with, get_decorators in Hb.
  erewrite bind_raise in Hb; [done|].
  erewrite bind_raise; [done|]. by apply _get_native_function_fail.
Qed.

Lemma unbound_names_stop_the_filtered_scan_witness :
  does_not_return
    (snd (fst (run (module_functions_decorated_with
                      [("g"%string, VRef 2)] (VRef 1) false false) 2 heap_decorated))).
Proof.
  apply (unbound_names_stop_the_filtered_scan [("g"%string, VRef 2)] (VRef 1)
           false false 2 heap_decorated (ModuleFunction "somefunc2" VNone)).
  - intros r Hr. vm_compute in Hr.
    destruct r as [|[|[|r]]]; [by eexists..|lia].
  - assert (fst (fst (run (all_decorated_module_functions
                             [("g"%string, VRef 2)] false false) 2 heap_decorated))
            = [ModuleFunction "somefunc2" VNone]) as -> by (by vm_compute).
    by apply list_elem_of_singleton.
  - intros r. discriminate.
Defined.

(** ** Where the entries of a module scan come from *)

Lemma walk_resolves n h r v : walk n h (VRef r) = Ok v → ∃ f, v = VRef f ∧ resolves h r f.
Proof.
  revert r. induction n as [|n IH]; intros r; [done|].
  unfold walk. simpl. unfold bind, getattr_annotations.
  destruct (h !! r) as [o|] eqn:Ho; [|done]. simpl.
  destruct (o_ann o) as [a|] eqn:Ha; [|done]. simpl.
  assert (track h r NATIVE_FUNCTION = a !! NATIVE_FUNCTION) as Ht.
  { unfold track, ann_at. rewrite Ho. simpl. by rewrite Ha. }
  destruct (a !! NATIVE_FUNCTION) as [next|] eqn:Hn.
  - intros Hw. change (walk n h next = Ok v) in Hw.
    destruct next as [| |r'|];
      try (destruct n; [done|]; by unfold walk in Hw).
    destruct (IH r' Hw) as (f&->&Hres). exists f. split; [done|].
    by eapply resolves_next.
  - simpl. intros [= <-]. exists r. split; [done|]. by apply resolves_here.
Qed.

Lemma resolves_ext h h' r f :
  (∀ r k, track h' r k = track h r k) → resolves h r f → resolves h' r f.
Proof.
  intros Ht. induction 1 as [r Hn|r r' f Hn _ IH].
  - apply resolves_here. by rewrite Ht.
  - eapply resolves_next; [by rewrite Ht|done].
Qed.

Lemma get_decorators_inv v n h x :
  fst (get_decorators v n h) = Ok x →
  ∃ f, real_function_of h v f
    ∧ x = default (VList []) (track h f DECORATORS).
Proof.
  destruct (unwrap h v) as [w|] eqn:Hu.
  2:{ unfold get_decorators.
      by erewrite bind_raise by (by apply _get_native_function_fail). }
  destruct (walk n (portable w h) (VRef w)) as [v'| |] eqn:Hw.
  - destruct (walk_resolves _ _ _ _ Hw) as (f&->&Hres).
    rewrite (get_decorators_ok _ _ _ _ _ Hu Hw). simpl. intros [= <-].
    exists f. split; [|done]. exists w. split; [done|].
    eapply resolves_ext; [|exact Hres]. intros r k. symmetry. apply track_portable.
  - unfold get_decorators.
    by erewrite bind_raise by (rewrite (_get_native_function_ok _ _ _ _ Hu), Hw; done).
  - unfold get_decorators.
    by erewrite bind_timeout by (rewrite (_get_native_function_ok _ _ _ _ Hu), Hw; done).
Qed.

Lemma dict_get_missing (d : list (string * value)) k : k ∉ d.*1 → dict_get d k = VNone.
Proof.
  induction d as [|[k' v] d IH]; [done|]. simpl. intros Hk.
  apply not_elem_of_cons in Hk as [Hne Hk].
  destruct (String.eqb k' k) eqn:E; [|by apply IH].
  apply String.eqb_eq in E. by subst.
Qed.

Section origins.
Context (h0 : heap) (module : namespace).

Local Abbreviation oinv := (gen_inv h0 (Forall (yielded_for h0 module))).
Local Abbreviation anything := (fun _ : list entry => True).

Lemma triple_yield_from e :
  yielded_for h0 module e → triple oinv anything (yield e) (fun _ _ => True).
Proof.
  intros He n h out (Hop&Hok) _. simpl. split; [|done].
  split; [done|]. apply Forall_app. split; [done|]. by apply Forall_singleton.
Qed.

Lemma decorators_result n h v x :
  only_portable h0 h → fst (get_decorators v n h) = Ok x →
  ∃ f, real_function_of h0 v f ∧ x = default (VList []) (track h0 f DECORATORS).
Proof.
  intros Hop Hg.
  destruct (get_decorators_inv _ _ _ _ Hg) as (f&(w&Hu&Hres)&->).
  exists f. split; [|by rewrite (only_portable_track h0 h)].
  exists w. split; [by rewrite <- (unwrap_only_portable h0 h)|].
  eapply resolves_ext; [|exact Hres]. intros r k'. symmetry.
  by apply only_portable_track.
Qed.

Lemma len_list_result n h x k :
  fst (len x n h) = Ok k → ∃ l, x = VList l ∧ k = List.length l.
Proof. destruct x; try done. simpl. intros [= <-]. by eexists. Qed.

Lemma native_name_result n h w native :
  only_portable h0 h → fst (getitem (VRef w) NATIVE_FUNCTION n h) = Ok native →
  track h0 w NATIVE_FUNCTION = Some native.
Proof.
  intros Hop Hg%getitem_result. by rewrite (only_portable_track h0 h) in Hg.
Qed.

(** The part the two loops of the scan share: what they have found out
    about a value [v] when they yield. *)
Lemma taken_as_intro v w x k r fname :
  is_function_type (typ h0 v) = true →
  unwrap h0 v = Some w →
  (∃ f, real_function_of h0 (VRef w) f
        ∧ x = default (VList []) (track h0 f DECORATORS)) →
  (∃ l, x = VList l ∧ k = List.length l) → 0 < k →
  track h0 w NATIVE_FUNCTION = Some (VRef r) → name_at h0 r = Some fname →
  taken_as h0 v fname.
Proof.
  intros Hty Hu (f'&Hreal&Hx) (l&Hl&->) Hpos Hn Hname.
  split; [done|]. exists w, r, f', l. split_and!; try done.
  - rewrite Hl in Hx. destruct (track h0 f' DECORATORS) as [y|]; simpl in Hx.
    + by subst y.
    + injection Hx as ->. simpl in Hpos. lia.
  - intros ->. simpl in Hpos. lia.
Qed.

Lemma triple_scan_class_element_from el c co cls_el names :
  el ∈ module.*1 → unwrap h0 (dict_get module el) = Some c →
  kind_at h0 c = Some (KClass co) → cls_meta co = None →
  triple oinv anything (scan_class_element yield (VRef c) cls_el names)
    (fun _ _ => True).
Proof.
  intros Hel Hu Hc Hmeta. unfold scan_class_element.
  eapply triple_bind;
    [apply (triple_lift _ _ _ (keeps_class_dict _)
              (fun n h => class_dict_result h0 n h (VRef c)))|].
  intros d. apply triple_pure. intros (r&co'&[= <-]&Hc'&->).
  assert (co' = co) as -> by congruence.
  eapply triple_bind;
    [apply (triple_lift _ _ _ (keeps_type_of _)
              (fun n h => type_of_result h0 n h (dict_get (cls_dict co) cls_el)))|].
  intros t. apply triple_pure. intros ->.
  destruct (is_function_type (typ h0 (dict_get (cls_dict co) cls_el))) eqn:Htyp;
    [|by apply triple_ret].
  eapply triple_bind;
    [apply (triple_lift _ _ _ (keeps_getfn _)
              (fun n h => _getfn_result h0 n h (dict_get (cls_dict co) cls_el)))|].
  intros method. apply triple_pure. intros (w&Huw&->).
  eapply triple_bind;
    [apply (triple_lift _ _ _ (keeps_get_decorators _)
              (fun n h => decorators_result n h (VRef w)))|].
  intros ds. apply triple_pure. intros Hds.
  eapply triple_bind;
    [apply (triple_lift _ _ _ (keeps_len _) (fun n h k _ => len_list_result n h ds k))|].
  intros k. apply triple_pure. intros Hk.
  case_bool_decide as Hpos; [|by apply triple_ret].
  eapply triple_bind;
    [apply (triple_lift _ _ _ (keeps_getitem _ _)
              (fun n h => native_name_result n h w))|].
  intros native_fn. apply triple_pure. intros Hnative.
  eapply triple_bind;
    [apply (triple_lift _ _ _ (keeps_getattr_name _)
              (fun n h => getattr_name_result h0 n h native_fn))|].
  intros fname. apply triple_pure. intros (r'&->&Hfname).
  case_bool_decide as Hnew; [|by apply triple_ret].
  eapply triple_bind;
    [apply (triple_lift _ _ _ (keeps_getattr_name _)
              (fun n h => getattr_name_result h0 n h (VRef c)))|].
  intros cname. apply triple_pure. intros (c'&[= <-]&Hcname).
  eapply triple_bind; [|intros []; by apply triple_ret].
  apply triple_yield_from. simpl. exists el, c, co, cls_el.
  split_and!; try done.
  - unfold name_at in Hcname. rewrite Hc in Hcname. congruence.
  - destruct (decide (cls_el ∈ (cls_dict co).*1)) as [|Hnin]; [done|].
    rewrite (dict_get_missing _ _ Hnin) in Htyp. done.
  - by eapply taken_as_intro.
Qed.

Lemma triple_scan_module_element_from em ef el names :
  el ∈ module.*1 →
  triple oinv anything (scan_module_element yield module em ef el names)
    (fun _ _ => True).
Proof.
  intros Hel. unfold scan_module_element.
  eapply triple_bind;
    [apply (triple_lift _ _ _ (keeps_type_of _)
              (fun n h => type_of_result h0 n h (dict_get module el)))|].
  intros t. apply triple_pure. intros ->.
  eapply (triple_bind _ _ _
    (fun st out => True ∧
       (fst st = dict_get module el
        ∨ ∃ w, unwrap h0 (dict_get module el) = Some w ∧ fst st = VRef w))).
  { destruct (negb ef && is_function_type (typ h0 (dict_get module el))) eqn:Hcond.
    2:{ apply triple_ret. intros _ _. split; [done|]. by left. }
    apply andb_true_iff in Hcond as [_ Htyp].
    eapply triple_bind;
      [apply (triple_lift _ _ _ (keeps_getfn _)
                (fun n h => _getfn_result h0 n h (dict_get module el)))|].
    intros method. apply triple_pure. intros (w&Huw&->).
    eapply triple_bind;
      [apply (triple_lift _ _ _ (keeps_get_decorators _)
                (fun n h => decorators_result n h (VRef w)))|].
    intros ds. apply triple_pure. intros Hds.
    eapply triple_bind;
      [apply (triple_lift _ _ _ (keeps_len _)
                (fun n h k _ => len_list_result n h ds k))|].
    intros k. apply triple_pure. intros Hk.
    assert (True ∧ (VRef w = dict_get module el
                    ∨ ∃ w', unwrap h0 (dict_get module el) = Some w'
                            ∧ VRef w = VRef w')) as Hst.
    { split; [done|]. right. by exists w. }
    case_bool_decide as Hpos; [|by apply triple_ret].
    eapply triple_bind;
      [apply (triple_lift _ _ _ (keeps_getitem _ _)
                (fun n h => native_name_result n h w))|].
    intros native_fn. apply triple_pure. intros Hnative.
    eapply triple_bind;
      [apply (triple_lift _ _ _ (keeps_getattr_name _)
                (fun n h => getattr_name_result h0 n h native_fn))|].
    intros fname. apply triple_pure. intros (r'&->&Hfname).
    case_bool_decide as Hnew; [|by apply triple_ret].
    eapply triple_bind; [|intros []; by apply triple_ret].
    apply triple_yield_from. simpl. exists el. split; [done|].
    by eapply taken_as_intro. }
  intros [fn names1]. simpl. apply triple_pure. intros Hfn.
  eapply triple_bind;
    [apply (triple_lift _ _ _ (keeps_type_of _) (fun n h => type_of_result h0 n h fn))|].
  intros t'. apply triple_pure. intros ->.
  destruct (negb em && bool_decide (typ h0 fn = TType)) eqn:Hcond;
    [|by apply triple_ret].
  apply andb_true_iff in Hcond as [_ Hty%bool_decide_eq_true].
  assert (∃ c co, fn = VRef c ∧ kind_at h0 c = Some (KClass co) ∧ cls_meta co = None)
    as (c&co&->&Hc&Hmeta).
  { destruct fn as [| |c|]; try done. rewrite typ_kind in Hty.
    destruct (kind_at h0 c) as [[| | |co|]|] eqn:Hk; try done.
    destruct (cls_meta co) eqn:Hm; [done|]. by exists c, co. }
  assert (unwrap h0 (dict_get module el) = Some c) as Hu.
  { destruct Hfn as [Heq|(w&Hu&[= ->])]; [|done].
    simpl in Heq. rewrite <- Heq. simpl. by rewrite Hc. }
  eapply triple_bind; [apply triple_lift_any, keeps_dir|]. intros cls_names.
  eapply triple_consequence.
  - apply (triple_for_each _ (fun _ _ => True)).
    intros m acc. by eapply triple_scan_class_element_from.
  - done.
Qed.

Lemma triple_all_decorated_module_functions_from em ef :
  triple oinv anything (all_decorated_module_functions module em ef)
    (fun _ _ => True).
Proof.
  apply (triple_for_each_in _ (fun _ _ => True)). intros el acc Hel.
  apply triple_scan_module_element_from. by apply elem_of_sorted_names.
Qed.
End origins.

(** X23: however a scan of a module ends, every entry it yielded comes
    from the module: a top-level entry named [fname] from a name the
    module binds to a function, a [staticmethod] or a [classmethod]
    object, for which [_getfn] returns an object that has decorators at
    the end of its chain and whose [native_function] entry is an object
    named [fname]; a method entry from such a value among the own members
    of a class, with the class [type], that the module binds.  No entry
    comes from an inherited member, from a function without decorators,
    or from a true original. *)
Theorem all_decorated_module_functions_yields_decorated module em ef fuel h e :
  e ∈ fst (fst (run (all_decorated_module_functions module em ef) fuel h)) →
  yielded_for h module e.
Proof.
  rewrite run_out.
  destruct (triple_all_decorated_module_functions_from h module em ef fuel h [])
    as [(_&Hok) _].
  { split; [apply only_portable_refl|apply Forall_nil_2]. }
  { done. }
  rewrite Forall_forall in Hok. apply Hok.
Qed.

Lemma all_decorated_module_functions_yields_decorated_witness :
  yielded_for heap_decorated [("somefunc2"%string, VRef 2)]
    (ModuleFunction "somefunc2" (VRef 2)).
Proof.
  apply (all_decorated_module_functions_yields_decorated
           [("somefunc2"%string, VRef 2)] false false 2 heap_decorated).
  assert (fst (fst (run (all_decorated_module_functions
                           [("somefunc2"%string, VRef 2)] false false) 2 heap_decorated))
          = [ModuleFunction "somefunc2" (VRef 2)]) as -> by (by vm_compute).
  by apply list_elem_of_singleton.
Defined.

(** ** A wrapper applied to a [staticmethod] or [classmethod] object *)




(** ** Chains of plain and parametrized wrappers *)









